(** * DedOneginSort: the line comparator and the line table of [Text.h]

    A shallow embedding of [src/Text.h] (class [IntegratedString], class
    [LineOrder], class [Text]) and the properties of its comparison engine,
    of the line split, of the trailing-line trim, of the renderer and of
    the order snapshot.

    Conventions of the embedding.
    - [size_t] is a 64-bit unsigned integer: a [Z] in [0, 2^64), every
      arithmetic result wrapped by [wrap].
    - [char16_t] is a 16-bit unsigned integer: a [Z] in [0, 2^16).
    - Memory holding code units is a [list Z]; a non-null [const char16_t*]
      is the index of a unit in it, the null pointer is [None].
    - A C++ array allocated with [new T[n]] is a [list T] of length [n].
    - A computation is an [outcome]: it returns, or it touches memory outside
      an allocated block ([Fault]), or an [assert] stops the program
      ([Abort]), or the loop budget of the model is used up ([Timeout]). *)

From Stdlib Require Import String ZArith List Bool Lia Permutation.
Import ListNotations.
Open Scope Z_scope.

(** ** Outcomes *)

Inductive outcome (A : Type) : Type :=
| Ret (a : A)
| Fault
| Abort
| Timeout.

Arguments Ret {A} a.
Arguments Fault {A}.
Arguments Abort {A}.
Arguments Timeout {A}.

Definition bind {A B : Type} (m : outcome A) (k : A -> outcome B) : outcome B :=
  match m with
  | Ret a => k a
  | Fault => Fault
  | Abort => Abort
  | Timeout => Timeout
  end.

Notation "x <- m ;; k" := (bind m (fun x => k))
  (at level 61, m at next level, right associativity).
Notation "' p <- m ;; k" := (bind m (fun p => k))
  (at level 61, p pattern, m at next level, right associativity).

(** ** Machine integers *)

Definition SIZE_BITS : Z := 64.
Definition SIZE_MOD : Z := 2 ^ SIZE_BITS.

(** Reduction of an integer to [size_t]. *)
Definition wrap (z : Z) : Z := z mod SIZE_MOD.

Definition CHAR16_MOD : Z := 65536.

(** Conversion to [char16_t]. *)
Definition to_char16 (z : Z) : Z := z mod CHAR16_MOD.

Definition is_char16 (c : Z) : Prop := 0 <= c < CHAR16_MOD.

(** [const char16_t UTF16_NEWLINE = char16_t(0xfeff000a);] *)
Definition UTF16_NEWLINE : Z := to_char16 0xfeff000a.

(** The wide-character constants of the source, [L'\n'] and [L'\0']. *)
Definition LF : Z := 10.
Definition NUL : Z := 0.

(** [htobe16] of <endian.h>: a byte swap on a little-endian host, the
    identity on a big-endian one. *)
Definition bswap16 (c : Z) : Z := (c mod 256) * 256 + (c / 256) mod 256.

Definition htobe16 (little_endian : bool) (c : Z) : Z :=
  if little_endian then bswap16 c else c.

(** [int utf16_comp_le(char16_t c1, char16_t c2)] *)
Definition utf16_comp_le (little_endian : bool) (c1 c2 : Z) : Z :=
  let c1 := htobe16 little_endian c1 in
  let c2 := htobe16 little_endian c2 in
  if c1 <? c2 then -1
  else if c1 =? c2 then 0
  else 1.

(** ** Memory and line views *)

Definition memory := list Z.

(** [ptr[k]] for a pointer [ptr] and an offset [k] of type [size_t]. *)
Definition load (mem : memory) (ptr : option Z) (k : Z) : outcome Z :=
  match ptr with
  | None => Fault
  | Some base =>
      if (0 <=? base + k) && (base + k <? Z.of_nat (length mem))
      then match nth_error mem (Z.to_nat (base + k)) with
           | Some c => Ret c
           | None => Fault
           end
      else Fault
  end.

(** [class IntegratedString]: [ptr_] and [size_]. *)
Record IntegratedString : Type := mkIntegratedString {
  ptr_ : option Z;
  size_ : Z
}.

(** [IntegratedString()] *)
Definition default_string : IntegratedString := mkIntegratedString None 0.

Definition getPtr (s : IntegratedString) : option Z := ptr_ s.
Definition getSize (s : IntegratedString) : Z := size_ s.

(** [PROHIBITED_]: the code units of the eleven skipped symbols, full stop,
    comma, exclamation mark, colon, semicolon, double quote, question mark,
    hyphen, both parentheses and space, and the terminator of the literal;
    [N_PROHIBITED_ = 11]. *)
Definition PROHIBITED_ : list Z := [46; 44; 33; 58; 59; 34; 63; 45; 40; 41; 32; 0].
Definition N_PROHIBITED_ : nat := 11.

(** [bool isProhibitedSymbol(char16_t sym)]: the scan [i = 0 .. N_PROHIBITED_ - 1]. *)
Definition isProhibitedSymbol (sym : Z) : bool :=
  existsb (fun p => p =? sym) (firstn N_PROHIBITED_ PROHIBITED_).

(** The value of [start + direction * ind] in [size_t] arithmetic, [direction]
    being the [int] converted to [size_t]. *)
Definition cursor (start direction ind : Z) : Z :=
  wrap (start + wrap (wrap direction * ind)).

(** [bool skipProhibited(ptr, start, ind, direction)]: the returned flag and
    the value left in [*ind]. *)
Definition skipProhibited (mem : memory) (ptr : option Z) (start ind direction : Z)
  : outcome (bool * Z) :=
  c <- load mem ptr (cursor start direction ind) ;;
  if isProhibitedSymbol c then Ret (true, wrap (ind + 1)) else Ret (false, ind).

(** [void advanceUntilNotProhibited(ptr, start, size, ind, direction)]: the
    value left in [*ind]. *)
Fixpoint advanceUntilNotProhibited (fuel : nat) (mem : memory) (ptr : option Z)
    (start size ind direction : Z) : outcome Z :=
  if ind <? size then
    c <- load mem ptr (cursor start direction ind) ;;
    if isProhibitedSymbol c then
      match fuel with
      | O => Timeout
      | S fuel' =>
          advanceUntilNotProhibited fuel' mem ptr start size (wrap (ind + 1)) direction
      end
    else Ret ind
  else Ret ind.

Section Comparator.

(** Byte order of the host, which decides what [htobe16] does. *)
Variable little_endian : bool.
Variable mem : memory.

(** The [while] loop of [directionalCompare]: [inl b] when a [return b]
    inside the loop is taken, [inr (indLHS, indRHS)] when the loop ends. *)
Fixpoint compare_loop (fuel : nat) (this that : IntegratedString)
    (startLHS startRHS direction indLHS indRHS : Z) : outcome (bool + Z * Z) :=
  if (indLHS <? getSize this) && (indRHS <? getSize that) then
    match fuel with
    | O => Timeout
    | S fuel' =>
        '(skipped, indLHS) <- skipProhibited mem (ptr_ this) startLHS indLHS direction ;;
        if skipped : bool
        then compare_loop fuel' this that startLHS startRHS direction indLHS indRHS
        else
          '(skipped, indRHS) <- skipProhibited mem (ptr_ that) startRHS indRHS direction ;;
          if skipped : bool
          then compare_loop fuel' this that startLHS startRHS direction indLHS indRHS
          else
            c1 <- load mem (ptr_ this) (cursor startLHS direction indLHS) ;;
            c2 <- load mem (ptr_ that) (cursor startRHS direction indRHS) ;;
            let comp_res := utf16_comp_le little_endian c1 c2 in
            let indLHS := wrap (indLHS + 1) in
            let indRHS := wrap (indRHS + 1) in
            if comp_res <? 0 then Ret (inl true)
            else if comp_res >? 0 then Ret (inl false)
            else compare_loop fuel' this that startLHS startRHS direction indLHS indRHS
    end
  else Ret (inr (indLHS, indRHS)).

(** [bool directionalCompare(that, startLHS, startRHS, direction)] *)
Definition directionalCompare (this that : IntegratedString)
    (startLHS startRHS direction : Z) : outcome bool :=
  if negb (Z.abs direction =? 1) then Abort
  else
    r <- compare_loop (Z.to_nat (getSize this + getSize that)) this that
           startLHS startRHS direction 0 0 ;;
    match r with
    | inl b => Ret b
    | inr (indLHS, indRHS) =>
        indLHS <- advanceUntilNotProhibited (Z.to_nat (getSize this)) mem (ptr_ this)
                    startLHS (getSize this) indLHS direction ;;
        indRHS <- advanceUntilNotProhibited (Z.to_nat (getSize that)) mem (ptr_ that)
                    startRHS (getSize that) indRHS direction ;;
        Ret ((getSize this <=? indLHS) && (indRHS <? getSize that))
    end.

(** [bool operator <(that)]: the default arguments [0, 0, 1]. *)
Definition operator_lt (this that : IntegratedString) : outcome bool :=
  directionalCompare this that 0 0 1.

(** [bool compareReversed(that)] *)
Definition compareReversed (this that : IntegratedString) : outcome bool :=
  directionalCompare this that (wrap (getSize this - 1)) (wrap (getSize that - 1)) (-1).

(** [bool reverseStringComparator(lhs, rhs)] *)
Definition reverseStringComparator (lhs rhs : IntegratedString) : outcome bool :=
  compareReversed lhs rhs.

End Comparator.

(** The second copy of the header in the repository, an earlier revision,
    has the comparator with the skips written in line and with the bound of
    the right cursor in the loop condition taken from the left view
    ([indRHS < getSize()]). *)
Module Legacy.

Section Comparator.

Variable little_endian : bool.
Variable mem : memory.

Fixpoint compare_loop (fuel : nat) (this that : IntegratedString)
    (startLHS startRHS direction indLHS indRHS : Z) : outcome (bool + Z * Z) :=
  if (indLHS <? getSize this) && (indRHS <? getSize this) then
    match fuel with
    | O => Timeout
    | S fuel' =>
        c <- load mem (ptr_ this) (cursor startLHS direction indLHS) ;;
        if isProhibitedSymbol c
        then compare_loop fuel' this that startLHS startRHS direction
               (wrap (indLHS + 1)) indRHS
        else
          c <- load mem (ptr_ that) (cursor startRHS direction indRHS) ;;
          if isProhibitedSymbol c
          then compare_loop fuel' this that startLHS startRHS direction
                 indLHS (wrap (indRHS + 1))
          else
            c1 <- load mem (ptr_ this) (cursor startLHS direction indLHS) ;;
            c2 <- load mem (ptr_ that) (cursor startRHS direction indRHS) ;;
            let comp_res := utf16_comp_le little_endian c1 c2 in
            let indLHS := wrap (indLHS + 1) in
            let indRHS := wrap (indRHS + 1) in
            if comp_res <? 0 then Ret (inl true)
            else if comp_res >? 0 then Ret (inl false)
            else compare_loop fuel' this that startLHS startRHS direction indLHS indRHS
    end
  else Ret (inr (indLHS, indRHS)).

(** The two [while] loops after the main loop are the loop of
    [advanceUntilNotProhibited]. *)
Definition directionalCompare (this that : IntegratedString)
    (startLHS startRHS direction : Z) : outcome bool :=
  if negb (Z.abs direction =? 1) then Abort
  else
    r <- compare_loop (Z.to_nat (2 * getSize this)) this that
           startLHS startRHS direction 0 0 ;;
    match r with
    | inl b => Ret b
    | inr (indLHS, indRHS) =>
        indLHS <- advanceUntilNotProhibited (Z.to_nat (getSize this)) mem (ptr_ this)
                    startLHS (getSize this) indLHS direction ;;
        indRHS <- advanceUntilNotProhibited (Z.to_nat (getSize that)) mem (ptr_ that)
                    startRHS (getSize that) indRHS direction ;;
        Ret ((getSize this <=? indLHS) && (indRHS <? getSize that))
    end.

Definition operator_lt (this that : IntegratedString) : outcome bool :=
  directionalCompare this that 0 0 1.

Definition compareReversed (this that : IntegratedString) : outcome bool :=
  directionalCompare this that (wrap (getSize this - 1)) (wrap (getSize that - 1)) (-1).

End Comparator.

End Legacy.

(** ** Arrays *)

(** [a[i]] for an array [a] and an index [i] of type [size_t]. *)
Definition array_get {A : Type} (a : list A) (i : Z) : outcome A :=
  if (0 <=? i) && (i <? Z.of_nat (length a))
  then match nth_error a (Z.to_nat i) with
       | Some x => Ret x
       | None => Fault
       end
  else Fault.

(** [a[i] = x] *)
Definition array_set {A : Type} (a : list A) (i : Z) (x : A) : outcome (list A) :=
  if (0 <=? i) && (i <? Z.of_nat (length a))
  then Ret (firstn (Z.to_nat i) a ++ x :: skipn (S (Z.to_nat i)) a)
  else Fault.

(** [memcpy(dst, src, n * sizeof(T))]: the first [n] elements of [dst]
    replaced by those of [src]. *)
Definition memcpy {A : Type} (dst src : list A) (n : Z) : outcome (list A) :=
  if (0 <=? n) && (n <=? Z.of_nat (length dst)) && (n <=? Z.of_nat (length src))
  then Ret (firstn (Z.to_nat n) src ++ skipn (Z.to_nat n) dst)
  else Fault.

(** The [n] units that [fwrite(ptr, sizeof(char16_t), n, output)] takes
    from memory; nothing is read when [n] is 0. *)
Definition load_block (mem : memory) (ptr : option Z) (n : Z) : outcome (list Z) :=
  if n =? 0 then Ret []
  else match ptr with
       | None => Fault
       | Some base =>
           if (0 <=? base) && (0 <=? n) && (base + n <=? Z.of_nat (length mem))
           then Ret (firstn (Z.to_nat n) (skipn (Z.to_nat base) mem))
           else Fault
       end.

(** ** Strings ended by a zero unit *)

(** [size_t utf16_strlen(const char16_t* str)], [str] being the units from
    the pointer to the end of its block. *)
Fixpoint utf16_strlen_from (str : list Z) (currentLen : Z) : outcome Z :=
  match str with
  | [] => Fault
  | c :: rest =>
      if negb (c =? NUL) then utf16_strlen_from rest (wrap (currentLen + 1))
      else Ret currentLen
  end.

Definition utf16_strlen (str : list Z) : outcome Z := utf16_strlen_from str 0.

(** [size_t utf16_count(const char16_t* str, char16_t symbol)] *)
Fixpoint utf16_count_from (str : list Z) (symbol answer : Z) : outcome Z :=
  match str with
  | [] => Fault
  | c :: rest =>
      if negb (c =? NUL)
      then utf16_count_from rest symbol (wrap (answer + (if c =? symbol then 1 else 0)))
      else Ret answer
  end.

Definition utf16_count (str : list Z) (symbol : Z) : outcome Z :=
  utf16_count_from str symbol 0.

(** [explicit IntegratedString(const char16_t* ptr)] *)
Definition IntegratedString_of_ptr (mem : memory) (ptr : Z) : outcome IntegratedString :=
  size <- utf16_strlen (skipn (Z.to_nat ptr) mem) ;;
  Ret (mkIntegratedString (Some ptr) size).

(** ** The line table *)

(** [class LineOrder]: the vector [lines_]. *)
Record LineOrder : Type := mkLineOrder {
  lines_ : list IntegratedString
}.

(** [class Text]. [buffer_] is the block of [nSymbols_ + 2] units and the
    memory of every view of the table; [strings_] and [original_] are the
    blocks obtained from [new IntegratedString[...]]. *)
Record Text : Type := mkText {
  buffer_ : list Z;
  nSymbols_ : Z;
  nLines_ : Z;
  strings_ : list IntegratedString;
  original_ : list IntegratedString
}.

(** The locals of [separateBufferIntoLines] together with the two blocks the
    loop writes. *)
Record split_state : Type := mkSplit {
  sp_buffer : list Z;
  sp_strings : list IntegratedString;
  currLength : Z;
  currLine : Z;
  currBeginning : Z
}.

(** The [for (size_t i = 1; i < nSymbols_; ++i)] loop of
    [separateBufferIntoLines]. *)
Fixpoint split_loop (fuel : nat) (nSymbols i : Z) (st : split_state)
  : outcome split_state :=
  if i <? nSymbols then
    match fuel with
    | O => Timeout
    | S fuel' =>
        c <- array_get (sp_buffer st) i ;;
        if negb (c =? LF) then
          split_loop fuel' nSymbols (wrap (i + 1))
            (mkSplit (sp_buffer st) (sp_strings st) (wrap (currLength st + 1))
                     (currLine st) (currBeginning st))
        else
          strings <- array_set (sp_strings st) (currLine st)
                       (mkIntegratedString (Some (currBeginning st)) (currLength st)) ;;
          buffer <- array_set (sp_buffer st) i NUL ;;
          split_loop fuel' nSymbols (wrap (i + 1))
            (mkSplit buffer strings 0 (wrap (currLine st + 1)) (i + 1))
    end
  else Ret st.

(** [void Text::separateBufferIntoLines()] *)
Definition separateBufferIntoLines (t : Text) : outcome Text :=
  count <- utf16_count (buffer_ t) LF ;;
  let nLines := wrap (count + 1) in
  let strings := repeat default_string (Z.to_nat nLines) in
  st <- split_loop (Z.to_nat (nSymbols_ t)) (nSymbols_ t) 1
          (mkSplit (buffer_ t) strings 0 0 1) ;;
  strings <- array_set (sp_strings st) (currLine st)
               (mkIntegratedString (Some (currBeginning st)) (currLength st)) ;;
  Ret (mkText (sp_buffer st) (nSymbols_ t) nLines strings (original_ t)).

(** The [while] loop of [shrinkEmptyLines]: the value left in [nLines_]. The
    condition reads [strings_[nLines_ - 1]] before it tests [nLines_ > 0]. *)
Fixpoint shrink_loop (fuel : nat) (strings : list IntegratedString) (nLines : Z)
  : outcome Z :=
  s <- array_get strings (wrap (nLines - 1)) ;;
  if (getSize s =? 0) && (0 <? nLines) then
    match fuel with
    | O => Timeout
    | S fuel' => shrink_loop fuel' strings (wrap (nLines - 1))
    end
  else Ret nLines.

(** [void Text::shrinkEmptyLines()] *)
Definition shrinkEmptyLines (t : Text) : outcome Text :=
  nLines <- shrink_loop (Z.to_nat (nLines_ t)) (strings_ t) (nLines_ t) ;;
  Ret (mkText (buffer_ t) (nSymbols_ t) nLines (strings_ t) (original_ t)).

(** [void Text::setOriginal()] *)
Definition setOriginal (t : Text) : outcome Text :=
  original <- memcpy (repeat default_string (Z.to_nat (nLines_ t))) (strings_ t)
                (nLines_ t) ;;
  Ret (mkText (buffer_ t) (nSymbols_ t) (nLines_ t) (strings_ t) original).

(** [void Text::loadFromFile(const char* filename)]. [file] is the content of
    the file in code units, [None] when it cannot be opened; [slack0] and
    [slack1] are the two units of the new block that [fread] does not write
    ([new char16_t[nSymbols_ + 2]] leaves them indeterminate). *)
Definition loadFromFile (file : option (list Z)) (slack0 slack1 : Z) : outcome Text :=
  match file with
  | None => Abort
  | Some units =>
      let nSymbols := wrap (Z.of_nat (length units)) in
      let buffer := firstn (Z.to_nat nSymbols) units ++ [slack0; slack1] in
      t <- separateBufferIntoLines (mkText buffer nSymbols 0 [] []) ;;
      t <- shrinkEmptyLines t ;;
      setOriginal t
  end.

(** The [for] loop of [printToFile]: the units written after the marker. *)
Fixpoint print_loop (fuel : nat) (t : Text) (i : Z) (output : list Z)
  : outcome (list Z) :=
  if i <? nLines_ t then
    match fuel with
    | O => Timeout
    | S fuel' =>
        s <- array_get (strings_ t) i ;;
        units <- load_block (buffer_ t) (getPtr s) (getSize s) ;;
        print_loop fuel' t (wrap (i + 1)) (output ++ units ++ [UTF16_NEWLINE])
    end
  else Ret output.

(** [void Text::printToFile(FILE* output)]: the units appended to the file. *)
Definition printToFile (t : Text) : outcome (list Z) :=
  marker <- load_block (buffer_ t) (Some 0) 1 ;;
  print_loop (Z.to_nat (nLines_ t)) t 0 marker.

(** [LineOrder Text::getOrder()] *)
Definition getOrder (t : Text) : outcome LineOrder :=
  lines <- memcpy (repeat default_string (Z.to_nat (nLines_ t))) (strings_ t)
             (nLines_ t) ;;
  Ret (mkLineOrder lines).

(** [void Text::setOrder(const LineOrder& order)] *)
Definition setOrder (t : Text) (order : LineOrder) : outcome Text :=
  if negb (Z.of_nat (length (lines_ order)) =? nLines_ t) then Abort
  else
    strings <- memcpy (strings_ t) (lines_ order) (nLines_ t) ;;
    Ret (mkText (buffer_ t) (nSymbols_ t) (nLines_ t) strings (original_ t)).

(** [void Text::recoverOriginal()] *)
Definition recoverOriginal (t : Text) : outcome Text :=
  strings <- memcpy (strings_ t) (original_ t) (nLines_ t) ;;
  Ret (mkText (buffer_ t) (nSymbols_ t) (nLines_ t) strings (original_ t)).

Section Sorting.

(** [std::sort] of the standard library: what it leaves in the range it is
    given, for a comparator. *)
Variable std_sort :
  (IntegratedString -> IntegratedString -> bool) ->
  list IntegratedString -> list IntegratedString.

(** [void Text::sort(Comparator comp)]: [std::sort(strings_, strings_ + nLines_, comp)]. *)
Definition sort (comp : IntegratedString -> IntegratedString -> bool) (t : Text)
  : outcome Text :=
  if (0 <=? nLines_ t) && (nLines_ t <=? Z.of_nat (length (strings_ t)))
  then
    let range := firstn (Z.to_nat (nLines_ t)) (strings_ t) in
    Ret (mkText (buffer_ t) (nSymbols_ t) (nLines_ t)
                (std_sort comp range ++ skipn (Z.to_nat (nLines_ t)) (strings_ t))
                (original_ t))
  else Fault.

End Sorting.

(** ** Views of well-formed programs *)

(** The units a view denotes. *)
Definition content (mem : memory) (s : IntegratedString) : list Z :=
  match ptr_ s with
  | None => []
  | Some base => firstn (Z.to_nat (size_ s)) (skipn (Z.to_nat base) mem)
  end.

(** A view lies inside the memory: its size is a [size_t], and its units are
    allocated. A view of size 0 may hold any pointer, the null one too. *)
Definition valid_view (mem : memory) (s : IntegratedString) : Prop :=
  0 <= size_ s < SIZE_MOD /\
  (size_ s = 0 \/
   exists base, ptr_ s = Some base /\ 0 <= base /\
                base + size_ s <= Z.of_nat (length mem)).

Definition significant (l : list Z) : list Z :=
  filter (fun c => negb (isProhibitedSymbol c)) l.

(** Lexicographic order of two unit sequences under [utf16_comp_le], a proper
    prefix being below its extensions. *)
Fixpoint lex_less (little_endian : bool) (la lb : list Z) : bool :=
  match la, lb with
  | [], [] => false
  | [], _ :: _ => true
  | _ :: _, [] => false
  | x :: la', y :: lb' =>
      let r := utf16_comp_le little_endian x y in
      if r <? 0 then true
      else if r >? 0 then false
      else lex_less little_endian la' lb'
  end.

Definition nonempty {A : Type} (l : list A) : bool :=
  match l with
  | [] => false
  | _ :: _ => true
  end.

(** The units a scan meets, in the order it meets them: [reads] says that
    the cursor positions [0 .. size - 1] of a scan load the units of [l]. *)
Definition reads (mem : memory) (ptr : option Z) (start direction size : Z)
    (l : list Z) : Prop :=
  Z.of_nat (length l) = size /\
  forall i, 0 <= i < size ->
            load mem ptr (cursor start direction i) = Ret (nth (Z.to_nat i) l 0).

(** What the loop of [directionalCompare] has decided when it stops, for
    views of sizes [sizeLHS] and [sizeRHS] whose scans meet the units [la]
    and [lb]: a [return] inside the loop gives the order of the significant
    units not yet scanned; the end of the loop leaves both cursors inside
    their views, one of them at the end, and the order of what is left is the
    order of what there was. *)
Definition loop_post (little_endian : bool) (sizeLHS sizeRHS : Z) (la lb : list Z)
    (indLHS indRHS : Z) (r : bool + Z * Z) : Prop :=
  let todo i j :=
    lex_less little_endian (significant (skipn (Z.to_nat i) la))
                           (significant (skipn (Z.to_nat j) lb)) in
  match r with
  | inl b => b = todo indLHS indRHS
  | inr (i, j) =>
      indLHS <= i <= sizeLHS /\ indRHS <= j <= sizeRHS /\
      (i = sizeLHS \/ j = sizeRHS) /\
      todo indLHS indRHS = todo i j
  end.

(** The two public comparators, by scan direction. *)
Inductive direction : Type := Forward | Backward.

Definition compare_toward (little_endian : bool) (mem : memory) (d : direction)
    (a b : IntegratedString) : outcome bool :=
  match d with
  | Forward => operator_lt little_endian mem a b
  | Backward => compareReversed little_endian mem a b
  end.

(** The units of a view in the order a scan in direction [d] meets them. *)
Definition scan (d : direction) (mem : memory) (s : IntegratedString) : list Z :=
  match d with
  | Forward => content mem s
  | Backward => rev (content mem s)
  end.

(** [la] is a proper prefix of [lb]. *)
Definition strict_prefix (la lb : list Z) : Prop :=
  exists t, t <> [] /\ lb = la ++ t.

(** [la] and [lb] agree up to a position where the unit of [la] is below the
    unit of [lb] under [utf16_comp_le]. *)
Definition first_difference_below (little_endian : bool) (la lb : list Z) : Prop :=
  exists p x y ta tb,
    la = p ++ x :: ta /\ lb = p ++ y :: tb /\ utf16_comp_le little_endian x y < 0.

(** The start offset and the direction a public comparator hands to
    [directionalCompare] for a view, by scan direction. *)
Definition scan_start (d : direction) (s : IntegratedString) : Z :=
  match d with
  | Forward => 0
  | Backward => wrap (getSize s - 1)
  end.

Definition scan_step (d : direction) : Z :=
  match d with
  | Forward => 1
  | Backward => -1
  end.

(** ** The split, as a function of the file *)

(** The views of the lines of [l], a sequence of units that starts at index
    [beginning + length] of the buffer, the line in progress having started
    at [beginning] and holding [length] units so far. *)
Fixpoint split_views (beginning length : Z) (l : list Z) : list IntegratedString :=
  match l with
  | [] => [mkIntegratedString (Some beginning) length]
  | c :: rest =>
      if c =? LF
      then mkIntegratedString (Some beginning) length
             :: split_views (beginning + length + 1) 0 rest
      else split_views beginning (length + 1) rest
  end.

(** The runs of units between the separators of [l]. *)
Fixpoint split_on (sep : Z) (l : list Z) : list (list Z) :=
  match l with
  | [] => [[]]
  | c :: rest =>
      if c =? sep then [] :: split_on sep rest
      else match split_on sep rest with
           | line :: lines => (c :: line) :: lines
           | [] => [[c]]
           end
  end.

(** The lines joined again, a separator after each but the last. *)
Fixpoint join (sep : Z) (lines : list (list Z)) : list Z :=
  match lines with
  | [] => []
  | [line] => line
  | line :: lines' => line ++ sep :: join sep lines'
  end.

(** The number of units of [l] equal to [symbol]. *)
Definition count_units (symbol : Z) (l : list Z) : nat :=
  length (filter (fun c => c =? symbol) l).

(** The units [acc] put in front of the first of [lines]. *)
Definition prepend (acc : list Z) (lines : list (list Z)) : list (list Z) :=
  match lines with
  | [] => [acc]
  | line :: lines' => (acc ++ line) :: lines'
  end.

(** The buffer after the split: every separator past the first unit
    overwritten by a zero unit. *)
Definition blanked (l : list Z) : list Z :=
  map (fun c => if c =? LF then NUL else c) l.

(** What [printToFile] writes for the lines of a table. *)
Definition rendering (mem : memory) (marker : Z) (lines : list IntegratedString) : list Z :=
  marker :: flat_map (fun s => content mem s ++ [UTF16_NEWLINE]) lines.

(** ** The strings of [test.cpp] *)

(** The literals of the tests [ComparatorCorrectRussian] and
    [CheckProhibitedSymbols], each with its terminator, laid out one after
    the other: the two names, the string of skipped symbols and the empty
    string. *)
Definition test_memory : memory :=
  [0x041F; 0x0443; 0x0442; 0x0438; 0x043D; 0;
   0x041E; 0x0431; 0x0430; 0x043C; 0x0430; 0;
   59; 46; 40; 41; 33; 63; 33; 63; 33; 63; 33; 63; 33; 41; 41; 41; 41; 34; 46; 58; 0;
   0].

Definition putin : IntegratedString := mkIntegratedString (Some 0) 5.
Definition obama : IntegratedString := mkIntegratedString (Some 6) 5.
Definition prohibited : IntegratedString := mkIntegratedString (Some 12) 20.
Definition empty : IntegratedString := mkIntegratedString (Some 33) 0.

(** The two names written backwards. *)
Definition mirror_memory : memory :=
  [0x043D; 0x0438; 0x0442; 0x0443; 0x041F;
   0x0430; 0x043C; 0x0430; 0x0431; 0x041E].

Definition nitup : IntegratedString := mkIntegratedString (Some 0) 5.
Definition amabo : IntegratedString := mkIntegratedString (Some 5) 5.

(** ** Well-formed tables *)

(** The current order: the first [nLines_] elements of [strings_]. *)
Definition current_order (t : Text) : list IntegratedString :=
  firstn (Z.to_nat (nLines_ t)) (strings_ t).

(** The line count is a [size_t] within the block [strings_]. *)
Definition lines_in_block (t : Text) : Prop :=
  0 <= nLines_ t < SIZE_MOD /\ nLines_ t <= Z.of_nat (length (strings_ t)).

(** A loaded table: the buffer holds at least its first unit, and the lines
    of the current order are views of the buffer. *)
Definition table_ok (t : Text) : Prop :=
  lines_in_block t /\ buffer_ t <> [] /\
  Forall (valid_view (buffer_ t)) (current_order t).

(** A sort by insertion, to stand for [std::sort] on examples. *)
Fixpoint insert_sorted (comp : IntegratedString -> IntegratedString -> bool)
    (x : IntegratedString) (l : list IntegratedString) : list IntegratedString :=
  match l with
  | [] => [x]
  | y :: rest => if comp x y then x :: y :: rest else y :: insert_sorted comp x rest
  end.

Definition insertion_sort (comp : IntegratedString -> IntegratedString -> bool)
    (l : list IntegratedString) : list IntegratedString :=
  fold_right (insert_sorted comp) [] l.

(** A comparator of the source as the predicate handed to [std::sort]. *)
Definition as_predicate (compare : IntegratedString -> IntegratedString -> outcome bool)
    (a b : IntegratedString) : bool :=
  match compare a b with
  | Ret r => r
  | _ => false
  end.

(** A table of two lines, the second and the first of a buffer that holds a
    marker and the lines [a] and [b]. *)
Definition sample_table : Text :=
  mkText [0xfeff; 97; 0; 98; 0; 0] 4 2
         [mkIntegratedString (Some 3) 1; mkIntegratedString (Some 1) 1]
         [mkIntegratedString (Some 1) 1; mkIntegratedString (Some 3) 1].

(** ** The rest of the line table and its callers *)

(** The invariant of a table after [loadFromFile]: the table is well formed,
    the block [original_] holds [nLines_] views, and the current order is a
    permutation of the original one. *)
Definition loaded (t : Text) : Prop :=
  table_ok t /\
  Z.of_nat (length (original_ t)) = nLines_ t /\
  Permutation (original_ t) (current_order t).

(** [void Text::loadFromBuffer(const char16_t* buf, int size = -1)]. [buf] is
    the units from the pointer to the end of its block. The size of the new
    block is the value of the assignment [nSymbols_ = 2]. *)
Definition loadFromBuffer (buf : list Z) (size : Z) : outcome Text :=
  nSymbols <- (if size <? 0 then utf16_strlen buf else Ret (wrap size)) ;;
  let nSymbols := 2 in
  buffer <- memcpy (repeat NUL (Z.to_nat nSymbols)) buf nSymbols ;;
  t <- separateBufferIntoLines (mkText buffer nSymbols 0 [] []) ;;
  setOriginal t.

Section Program.

Variable little_endian : bool.

Variable std_sort :
  (IntegratedString -> IntegratedString -> bool) ->
  list IntegratedString -> list IntegratedString.

(** [text.sort(); text.printToFile(output);] with the default comparator
    [std::less<IntegratedString>], which calls [operator <]. *)
Definition print_sorted (t : Text) (output : list Z) : outcome (Text * list Z) :=
  t <- sort std_sort (as_predicate (operator_lt little_endian (buffer_ t))) t ;;
  units <- printToFile t ;;
  Ret (t, output ++ units).

(** [text.sort(reverseStringComparator); text.printToFile(output);] *)
Definition print_reversed (t : Text) (output : list Z) : outcome (Text * list Z) :=
  t <- sort std_sort
         (as_predicate (reverseStringComparator little_endian (buffer_ t))) t ;;
  units <- printToFile t ;;
  Ret (t, output ++ units).

(** [text.recoverOriginal(); text.printToFile(output);] *)
Definition print_original (t : Text) (output : list Z) : outcome (Text * list Z) :=
  t <- recoverOriginal t ;;
  units <- printToFile t ;;
  Ret (t, output ++ units).

(** [void printFiles(Text& text, FILE* output, bool needOrig, bool needSort,
    bool needRev)] of [main.cpp]: the table and the content of the output
    file after the call. A [Text] of the embedding holds its blocks, so
    [text.isOk()] holds of it, and the output file is open. *)
Definition printFiles (t : Text) (output : list Z) (needOrig needSort needRev : bool)
  : outcome (Text * list Z) :=
  '(t, output) <- (if needSort then print_sorted t output else Ret (t, output)) ;;
  '(t, output) <- (if needRev then print_reversed t output else Ret (t, output)) ;;
  if needOrig then print_original t output else Ret (t, output).

End Program.

(** [struct Options] of [main.cpp]. *)
Record Options : Type := mkOptions {
  needOrig : bool;
  needSort : bool;
  needRev : bool;
  inputFilename : string;
  outputFilename : string
}.

(** [struct option] of <getopt.h>: [name] ([None] for a null pointer),
    [has_arg], whether [flag] is null, and [val]. *)
Record option_entry : Type := mkOption {
  name : option string;
  has_arg : Z;
  flag_is_null : bool;
  val : Z
}.

(** The codes of the characters [i], [o], [s] and [r]. *)
Definition CHAR_i : Z := 105.
Definition CHAR_o : Z := 111.
Definition CHAR_s : Z := 115.
Definition CHAR_r : Z := 114.

(** [option longOpt[6]] of [getOptions]. *)
Definition longOpt : list option_entry :=
  [ mkOption (Some "input"%string) 1 true CHAR_i;
    mkOption (Some "original"%string) 0 true CHAR_o;
    mkOption (Some "sorted"%string) 0 true CHAR_s;
    mkOption (Some "rev"%string) 0 true CHAR_r;
    mkOption (Some "output"%string) 1 true 0;
    mkOption None 0 true 0 ].

(** What one call of [getopt_long] that does not return -1 leaves: its
    result, and the values of [optionIndex] and [optarg] after it. *)
Record getopt_result : Type := mkGetopt {
  opt : Z;
  optionIndex : Z;
  optarg : string
}.

(** The [switch (opt)] of [getOptions]. *)
Definition getOptions_switch (options : Options) (r : getopt_result) : outcome Options :=
  if opt r =? CHAR_i then
    Ret (mkOptions (needOrig options) (needSort options) (needRev options)
                   (optarg r) (outputFilename options))
  else if opt r =? CHAR_o then
    Ret (mkOptions true (needSort options) (needRev options)
                   (inputFilename options) (outputFilename options))
  else if opt r =? CHAR_s then
    Ret (mkOptions (needOrig options) true (needRev options)
                   (inputFilename options) (outputFilename options))
  else if opt r =? CHAR_r then
    Ret (mkOptions (needOrig options) (needSort options) true
                   (inputFilename options) (outputFilename options))
  else if opt r =? 0 then
    entry <- array_get longOpt (optionIndex r) ;;
    if negb (flag_is_null entry) then Ret options
    else
      match name entry with
      | None => Fault
      | Some entry_name =>
          if String.eqb entry_name "output"%string
          then Ret (mkOptions (needOrig options) (needSort options) (needRev options)
                              (inputFilename options) (optarg r))
          else Ret options
      end
  else Ret options.

(** The [while ((opt = getopt_long(...)) != -1)] loop of [getOptions], over
    the results of the calls before the one that returns -1. *)
Fixpoint getOptions_loop (options : Options) (results : list getopt_result)
  : outcome Options :=
  match results with
  | [] => Ret options
  | r :: rest =>
      options <- getOptions_switch options r ;;
      getOptions_loop options rest
  end.

(** [Options getOptions(int argc, char** argv)], as a function of what
    [getopt_long] returns on [argc] and [argv]. *)
Definition getOptions (results : list getopt_result) : outcome Options :=
  options <- getOptions_loop
               (mkOptions false false false EmptyString "output.txt"%string) results ;;
  if (Z.b2z (needSort options) + Z.b2z (needRev options) + Z.b2z (needOrig options) =? 0)
  then Ret (mkOptions true true true (inputFilename options) (outputFilename options))
  else Ret options.

(** Whether a call of [getopt_long] returned the code [c]. *)
Definition asked (c : Z) (results : list getopt_result) : bool :=
  existsb (fun r => opt r =? c) results.

(** ** Arithmetic of the cursors *)

Lemma SIZE_MOD_pos : 0 < SIZE_MOD.
Proof. reflexivity. Qed.

Lemma wrap_small (z : Z) : 0 <= z < SIZE_MOD -> wrap z = z.
Proof. intros H. unfold wrap. now apply Z.mod_small. Qed.

Lemma cursor_forward (i : Z) : 0 <= i < SIZE_MOD -> cursor 0 1 i = i.
Proof.
  intros H. unfold cursor.
  rewrite (wrap_small 1) by (unfold SIZE_MOD, SIZE_BITS; lia).
  rewrite Z.mul_1_l, (wrap_small i) by assumption.
  now rewrite Z.add_0_l, wrap_small.
Qed.

Lemma cursor_backward (size i : Z) :
  0 <= i < size -> size < SIZE_MOD ->
  cursor (wrap (size - 1)) (-1) i = size - 1 - i.
Proof.
  intros Hi Hs. unfold cursor.
  rewrite (wrap_small (size - 1)) by lia.
  unfold wrap. rewrite Zmult_mod_idemp_l, Zplus_mod_idemp_r.
  replace (size - 1 + -1 * i) with (size - 1 - i) by lia.
  apply Z.mod_small. lia.
Qed.

(** ** Lists *)

Lemma skipn_nth_cons {A : Type} (d : A) (l : list A) (n : nat) :
  (n < length l)%nat -> skipn n l = nth n l d :: skipn (S n) l.
Proof.
  revert n. induction l as [|x l IH]; intros n H; simpl in H.
  - lia.
  - destruct n as [|n]; [reflexivity|].
    simpl. apply IH. lia.
Qed.

Lemma significant_app (l1 l2 : list Z) :
  significant (l1 ++ l2) = significant l1 ++ significant l2.
Proof. apply filter_app. Qed.

Lemma significant_rev (l : list Z) : significant (rev l) = rev (significant l).
Proof.
  induction l as [|x l IH]; [reflexivity|].
  simpl rev. rewrite significant_app, IH. simpl.
  destruct (isProhibitedSymbol x); simpl; [now rewrite app_nil_r | reflexivity].
Qed.

Lemma lex_less_nil_l (le : bool) (l : list Z) : lex_less le [] l = nonempty l.
Proof. now destruct l. Qed.

Lemma lex_less_nil_r (le : bool) (l : list Z) : lex_less le l [] = false.
Proof. now destruct l. Qed.

(** ** The scans load the content of a valid view *)

Lemma content_length (mem : memory) (s : IntegratedString) :
  valid_view mem s -> Z.of_nat (length (content mem s)) = size_ s.
Proof.
  intros [Hs [H0 | (base & Hp & Hb & Hend)]]; unfold content.
  - rewrite H0. destruct (ptr_ s); simpl; reflexivity.
  - rewrite Hp, length_firstn, length_skipn. lia.
Qed.

Lemma content_nth (mem : memory) (s : IntegratedString) (base i : Z) :
  ptr_ s = Some base -> 0 <= base -> base + size_ s <= Z.of_nat (length mem) ->
  0 <= i < size_ s ->
  nth_error mem (Z.to_nat (base + i)) = Some (nth (Z.to_nat i) (content mem s) 0).
Proof.
  intros Hp Hb Hend Hi. unfold content. rewrite Hp.
  assert (Hlen : (Z.to_nat i < length (firstn (Z.to_nat (size_ s)) (skipn (Z.to_nat base) mem)))%nat)
    by (rewrite length_firstn, length_skipn; lia).
  rewrite <- (nth_error_nth' _ 0 Hlen).
  rewrite nth_error_firstn.
  replace (Z.to_nat i <? Z.to_nat (size_ s))%nat with true
    by (symmetry; apply Nat.ltb_lt; lia).
  rewrite nth_error_skipn. f_equal. lia.
Qed.

Lemma reads_forward (mem : memory) (s : IntegratedString) :
  valid_view mem s -> reads mem (ptr_ s) 0 1 (size_ s) (content mem s).
Proof.
  intros Hv. split; [now apply content_length|].
  intros i Hi. destruct Hv as [Hs [H0 | (base & Hp & Hb & Hend)]]; [lia|].
  rewrite cursor_forward by lia. unfold load. rewrite Hp.
  replace ((0 <=? base + i) && (base + i <? Z.of_nat (length mem))) with true
    by (symmetry; apply andb_true_iff; rewrite Z.leb_le, Z.ltb_lt; lia).
  now rewrite (content_nth mem s base i).
Qed.

Lemma reads_backward (mem : memory) (s : IntegratedString) :
  valid_view mem s ->
  reads mem (ptr_ s) (wrap (size_ s - 1)) (-1) (size_ s) (rev (content mem s)).
Proof.
  intros Hv. pose proof (content_length mem s Hv) as Hlen.
  split; [now rewrite length_rev|].
  intros i Hi. destruct Hv as [Hs [H0 | (base & Hp & Hb & Hend)]]; [lia|].
  rewrite cursor_backward by lia. unfold load. rewrite Hp.
  replace ((0 <=? base + (size_ s - 1 - i)) &&
           (base + (size_ s - 1 - i) <? Z.of_nat (length mem))) with true
    by (symmetry; apply andb_true_iff; rewrite Z.leb_le, Z.ltb_lt; lia).
  rewrite (content_nth mem s base (size_ s - 1 - i)) by (try assumption; lia).
  rewrite rev_nth by lia. do 2 f_equal. lia.
Qed.

(** ** The comparison loops on the scanned sequences *)

Section ScanRefinement.

Variable little_endian : bool.
Variable mem : memory.

Lemma advance_spec (ptr : option Z) (start direction size : Z) (l : list Z) :
  reads mem ptr start direction size l -> size < SIZE_MOD ->
  forall (fuel : nat) (ind : Z),
    0 <= ind <= size -> (Z.to_nat (size - ind) <= fuel)%nat ->
    exists ind',
      advanceUntilNotProhibited fuel mem ptr start size ind direction = Ret ind' /\
      ind <= ind' <= size /\
      (ind' <? size) = nonempty (significant (skipn (Z.to_nat ind) l)).
Proof.
  intros [Hlen Hload] Hsize fuel.
  induction fuel as [|fuel IH]; intros ind Hind Hfuel.
  - assert (ind = size) by lia. subst ind.
    exists size. simpl. rewrite Z.ltb_irrefl.
    rewrite skipn_all2 by lia. repeat split; lia.
  - simpl. destruct (ind <? size) eqn:Hlt.
    + apply Z.ltb_lt in Hlt.
      rewrite Hload by lia. simpl.
      rewrite (skipn_nth_cons 0 l (Z.to_nat ind)) by lia.
      unfold significant at 1. simpl filter.
      destruct (isProhibitedSymbol (nth (Z.to_nat ind) l 0)) eqn:Hp; simpl.
      * rewrite wrap_small by lia.
        destruct (IH (ind + 1)) as (ind' & He & Hb & Hn); [lia | lia |].
        exists ind'. rewrite He. split; [reflexivity|]. split; [lia|].
        rewrite Hn. now replace (Z.to_nat (ind + 1)) with (S (Z.to_nat ind)) by lia.
      * exists ind. split; [reflexivity|]. split; [lia|]. now apply Z.ltb_lt.
    + apply Z.ltb_ge in Hlt. assert (ind = size) by lia. subst ind.
      exists size. rewrite skipn_all2 by lia. rewrite Z.ltb_irrefl.
      repeat split; lia.
Qed.

Variables this that : IntegratedString.
Variables startLHS startRHS direction : Z.
Variables la lb : list Z.
Hypothesis reads_lhs : reads mem (ptr_ this) startLHS direction (size_ this) la.
Hypothesis reads_rhs : reads mem (ptr_ that) startRHS direction (size_ that) lb.
Hypothesis size_lhs : size_ this < SIZE_MOD.
Hypothesis size_rhs : size_ that < SIZE_MOD.

Lemma compare_loop_spec (fuel : nat) :
  forall indLHS indRHS,
    0 <= indLHS <= size_ this -> 0 <= indRHS <= size_ that ->
    (Z.to_nat ((size_ this - indLHS) + (size_ that - indRHS)) <= fuel)%nat ->
    exists r,
      compare_loop little_endian mem fuel this that startLHS startRHS direction
                   indLHS indRHS = Ret r /\
      loop_post little_endian (size_ this) (size_ that) la lb indLHS indRHS r.
Proof.
  destruct reads_lhs as [HlenL HloadL]. destruct reads_rhs as [HlenR HloadR].
  induction fuel as [|fuel IH]; intros indLHS indRHS HL HR Hfuel.
  - exists (inr (indLHS, indRHS)). simpl. unfold getSize.
    replace ((indLHS <? size_ this) && (indRHS <? size_ that)) with false
      by (symmetry; apply andb_false_iff; rewrite !Z.ltb_ge; lia).
    split; [reflexivity|]. simpl. repeat split; lia.
  - simpl. unfold getSize.
    destruct ((indLHS <? size_ this) && (indRHS <? size_ that)) eqn:Hcond.
    + apply andb_true_iff in Hcond. destruct Hcond as [HltL HltR].
      apply Z.ltb_lt in HltL, HltR.
      unfold skipProhibited.
      rewrite (HloadL indLHS) by lia. simpl bind.
      destruct (isProhibitedSymbol (nth (Z.to_nat indLHS) la 0)) eqn:HpL; simpl bind.
      * rewrite wrap_small by lia.
        destruct (IH (indLHS + 1) indRHS) as (r & He & Hpost); [lia | lia | lia |].
        exists r. split; [exact He|].
        unfold loop_post in *.
        rewrite (skipn_nth_cons 0 la (Z.to_nat indLHS)) by lia.
        unfold significant at 1 3. simpl filter. rewrite HpL. simpl.
        replace (Z.to_nat (indLHS + 1)) with (S (Z.to_nat indLHS)) in Hpost by lia.
        destruct r as [b | [i j]]; [exact Hpost|].
        destruct Hpost as (Hi & Hj & Hend & Heq). repeat split; try lia; assumption.
      * rewrite (HloadR indRHS) by lia. simpl bind.
        destruct (isProhibitedSymbol (nth (Z.to_nat indRHS) lb 0)) eqn:HpR; simpl bind.
        -- rewrite wrap_small by lia.
           destruct (IH indLHS (indRHS + 1)) as (r & He & Hpost); [lia | lia | lia |].
           exists r. split; [exact He|].
           unfold loop_post in *.
           rewrite (skipn_nth_cons 0 lb (Z.to_nat indRHS)) by lia.
           unfold significant at 2 4. simpl filter. rewrite HpR. simpl.
           replace (Z.to_nat (indRHS + 1)) with (S (Z.to_nat indRHS)) in Hpost by lia.
           destruct r as [b | [i j]]; [exact Hpost|].
           destruct Hpost as (Hi & Hj & Hend & Heq). repeat split; try lia; assumption.
        -- rewrite (HloadL indLHS), (HloadR indRHS) by lia. simpl bind.
           rewrite !wrap_small by lia.
           assert (Hstep :
             lex_less little_endian (significant (skipn (Z.to_nat indLHS) la))
                                    (significant (skipn (Z.to_nat indRHS) lb)) =
             let r := utf16_comp_le little_endian (nth (Z.to_nat indLHS) la 0)
                                    (nth (Z.to_nat indRHS) lb 0) in
             if r <? 0 then true else if r >? 0 then false
             else lex_less little_endian
                    (significant (skipn (Z.to_nat (indLHS + 1)) la))
                    (significant (skipn (Z.to_nat (indRHS + 1)) lb))).
           { rewrite (skipn_nth_cons 0 la (Z.to_nat indLHS)) by lia.
             rewrite (skipn_nth_cons 0 lb (Z.to_nat indRHS)) by lia.
             unfold significant at 1 2. simpl filter. rewrite HpL, HpR. simpl.
             replace (Z.to_nat (indLHS + 1)) with (S (Z.to_nat indLHS)) by lia.
             replace (Z.to_nat (indRHS + 1)) with (S (Z.to_nat indRHS)) by lia.
             reflexivity. }
           cbv zeta in Hstep |- *.
           destruct (utf16_comp_le little_endian (nth (Z.to_nat indLHS) la 0)
                       (nth (Z.to_nat indRHS) lb 0) <? 0) eqn:Hneg.
           ++ exists (inl true). split; [reflexivity|]. simpl. now rewrite Hstep.
           ++ destruct (utf16_comp_le little_endian (nth (Z.to_nat indLHS) la 0)
                          (nth (Z.to_nat indRHS) lb 0) >? 0) eqn:Hposi.
              ** exists (inl false). split; [reflexivity|]. simpl. now rewrite Hstep.
              ** destruct (IH (indLHS + 1) (indRHS + 1)) as (r & He & Hpost);
                   [lia | lia | lia |].
                 exists r. split; [exact He|].
                 unfold loop_post in *. rewrite Hstep.
                 destruct r as [b | [i j]]; [exact Hpost|].
                 destruct Hpost as (Hi & Hj & Hend & Heq).
                 repeat split; try lia; assumption.
    + exists (inr (indLHS, indRHS)). split; [reflexivity|].
      apply andb_false_iff in Hcond. rewrite !Z.ltb_ge in Hcond.
      simpl. repeat split; lia.
Qed.

(** [directionalCompare] returns the lexicographic order of the significant
    units of the two scans. *)
Lemma directionalCompare_scan :
  Z.abs direction = 1 -> 0 <= size_ this -> 0 <= size_ that ->
  directionalCompare little_endian mem this that startLHS startRHS direction =
  Ret (lex_less little_endian (significant la) (significant lb)).
Proof.
  intros Hdir HsL HsR. unfold directionalCompare.
  rewrite Hdir. simpl negb. cbv iota. unfold getSize.
  destruct (compare_loop_spec (Z.to_nat (size_ this + size_ that)) 0 0)
    as (r & He & Hpost); [lia | lia | lia |].
  rewrite He. simpl bind. unfold loop_post in Hpost. simpl skipn in Hpost.
  destruct r as [b | [i j]]; [now rewrite Hpost|].
  destruct Hpost as (Hi & Hj & Hend & Heq). rewrite Heq.
  destruct (advance_spec _ _ _ _ _ reads_lhs size_lhs (Z.to_nat (size_ this)) i)
    as (i' & HeL & HbL & HnL); [lia | lia |].
  destruct (advance_spec _ _ _ _ _ reads_rhs size_rhs (Z.to_nat (size_ that)) j)
    as (j' & HeR & HbR & HnR); [lia | lia |].
  rewrite HeL. simpl bind. rewrite HeR. simpl bind. f_equal.
  destruct reads_lhs as [HlenL _]. destruct reads_rhs as [HlenR _].
  destruct Hend as [-> | ->].
  - assert (i' = size_ this) by lia. subst i'.
    rewrite (skipn_all2 la) by lia. simpl significant.
    rewrite lex_less_nil_l, Z.leb_refl, HnR. reflexivity.
  - assert (j' = size_ that) by lia. subst j'.
    rewrite (skipn_all2 lb) by lia. simpl significant.
    rewrite lex_less_nil_r, Z.ltb_irrefl. apply andb_false_r.
Qed.

End ScanRefinement.

(** ** The code-unit order *)

Lemma bswap16_inj (x y : Z) :
  is_char16 x -> is_char16 y -> bswap16 x = bswap16 y -> x = y.
Proof.
  unfold is_char16, CHAR16_MOD, bswap16. intros Hx Hy H.
  rewrite (Z.mod_small (x / 256)) in H by (split; [apply Z.div_pos | apply Z.div_lt_upper_bound]; lia).
  rewrite (Z.mod_small (y / 256)) in H by (split; [apply Z.div_pos | apply Z.div_lt_upper_bound]; lia).
  pose proof (Z.div_mod x 256 ltac:(lia)) as Dx.
  pose proof (Z.div_mod y 256 ltac:(lia)) as Dy.
  pose proof (Z.mod_pos_bound x 256 ltac:(lia)).
  pose proof (Z.mod_pos_bound y 256 ltac:(lia)).
  assert (0 <= x / 256 < 256) by (split; [apply Z.div_pos | apply Z.div_lt_upper_bound]; lia).
  assert (0 <= y / 256 < 256) by (split; [apply Z.div_pos | apply Z.div_lt_upper_bound]; lia).
  lia.
Qed.

Lemma htobe16_inj (le : bool) (x y : Z) :
  is_char16 x -> is_char16 y -> htobe16 le x = htobe16 le y -> x = y.
Proof.
  destruct le; simpl; [apply bswap16_inj | trivial].
Qed.

Lemma utf16_comp_le_refl (le : bool) (x : Z) : utf16_comp_le le x x = 0.
Proof.
  unfold utf16_comp_le. now rewrite Z.ltb_irrefl, Z.eqb_refl.
Qed.

Lemma utf16_comp_le_cases (le : bool) (x y : Z) :
  (utf16_comp_le le x y = -1 /\ htobe16 le x < htobe16 le y) \/
  (utf16_comp_le le x y = 0 /\ htobe16 le x = htobe16 le y) \/
  (utf16_comp_le le x y = 1 /\ htobe16 le y < htobe16 le x).
Proof.
  unfold utf16_comp_le.
  destruct (htobe16 le x <? htobe16 le y) eqn:Hlt.
  - left. apply Z.ltb_lt in Hlt. now split.
  - apply Z.ltb_ge in Hlt.
    destruct (htobe16 le x =? htobe16 le y) eqn:Heq.
    + right; left. apply Z.eqb_eq in Heq. now split.
    + right; right. apply Z.eqb_neq in Heq. split; [reflexivity | lia].
Qed.

(** ** The lexicographic order *)

Lemma Forall_firstn {A : Type} (P : A -> Prop) (n : nat) (l : list A) :
  Forall P l -> Forall P (firstn n l).
Proof.
  intros H. rewrite <- (firstn_skipn n l) in H. now apply Forall_app in H.
Qed.

Lemma Forall_skipn {A : Type} (P : A -> Prop) (n : nat) (l : list A) :
  Forall P l -> Forall P (skipn n l).
Proof.
  intros H. rewrite <- (firstn_skipn n l) in H. now apply Forall_app in H.
Qed.

Lemma content_char16 (mem : memory) (s : IntegratedString) :
  Forall is_char16 mem -> Forall is_char16 (content mem s).
Proof.
  intros H. unfold content. destruct (ptr_ s); [|constructor].
  now apply Forall_firstn, Forall_skipn.
Qed.

Lemma significant_char16 (l : list Z) :
  Forall is_char16 l -> Forall is_char16 (significant l).
Proof.
  intros H. apply Forall_forall. intros x Hx.
  apply filter_In in Hx. rewrite Forall_forall in H. now apply H.
Qed.

Lemma scan_char16 (d : direction) (mem : memory) (s : IntegratedString) :
  Forall is_char16 mem -> Forall is_char16 (significant (scan d mem s)).
Proof.
  intros H. apply significant_char16. destruct d; simpl.
  - now apply content_char16.
  - apply Forall_rev. now apply content_char16.
Qed.

Lemma lex_less_iff (le : bool) (la : list Z) :
  forall lb, Forall is_char16 la -> Forall is_char16 lb ->
    (lex_less le la lb = true <->
     strict_prefix la lb \/ first_difference_below le la lb).
Proof.
  induction la as [|x la IH]; intros [|y lb] Ha Hb.
  - simpl. split; [discriminate|].
    intros [(t & Ht & He) | (p & x & y & ta & tb & He & _)].
    + simpl in He. congruence.
    + destruct p; discriminate.
  - simpl. split; [|reflexivity]. intros _. left. exists (y :: lb). split; [discriminate | reflexivity].
  - simpl. split; [discriminate|].
    intros [(t & Ht & He) | (p & x' & y & ta & tb & _ & He & _)].
    + discriminate.
    + destruct p; discriminate.
  - inversion Ha as [|? ? Hx Ha']; subst. inversion Hb as [|? ? Hy Hb']; subst.
    simpl.
    destruct (utf16_comp_le_cases le x y) as [[Hc Ho] | [[Hc Ho] | [Hc Ho]]]; rewrite Hc; simpl.
    + split; [|reflexivity]. intros _. right.
      exists [], x, y, la, lb. repeat split. lia.
    + apply htobe16_inj in Ho; [|assumption..]. subst y.
      rewrite (IH lb Ha' Hb'). split.
      * intros [(t & Ht & He) | (p & x' & y & ta & tb & Ea & Eb & Hlt)].
        -- left. exists t. split; [assumption|]. simpl. now rewrite He.
        -- right. exists (x :: p), x', y, ta, tb. simpl. now rewrite Ea, Eb.
      * intros [(t & Ht & He) | (p & x' & y & ta & tb & Ea & Eb & Hlt)].
        -- left. exists t. split; [assumption|]. simpl in He. congruence.
        -- right. destruct p as [|z p]; simpl in Ea, Eb.
           ++ inversion Ea; subst. inversion Eb; subst.
              rewrite utf16_comp_le_refl in Hlt. lia.
           ++ inversion Ea; subst. inversion Eb; subst.
              now exists p, x', y, ta, tb.
    + split; [discriminate|].
      intros [(t & Ht & He) | (p & x' & y' & ta & tb & Ea & Eb & Hlt)].
      * simpl in He. inversion He; subst. lia.
      * destruct p as [|z p]; simpl in Ea, Eb.
        -- inversion Ea; subst. inversion Eb; subst. lia.
        -- inversion Ea; subst. inversion Eb; subst. lia.
Qed.

Lemma lex_less_irrefl (le : bool) (l : list Z) : lex_less le l l = false.
Proof.
  induction l as [|x l IH]; [reflexivity|].
  simpl. now rewrite utf16_comp_le_refl.
Qed.

Lemma lex_less_trichotomy (le : bool) (la : list Z) :
  forall lb, Forall is_char16 la -> Forall is_char16 lb ->
    (lex_less le la lb = true /\ lex_less le lb la = false /\ la <> lb) \/
    (lex_less le la lb = false /\ lex_less le lb la = true /\ la <> lb) \/
    (lex_less le la lb = false /\ lex_less le lb la = false /\ la = lb).
Proof.
  induction la as [|x la IH]; intros [|y lb] Ha Hb.
  - right; right. now repeat split.
  - left. simpl. repeat split. discriminate.
  - right; left. simpl. repeat split. discriminate.
  - inversion Ha as [|? ? Hx Ha']; subst. inversion Hb as [|? ? Hy Hb']; subst.
    simpl.
    destruct (utf16_comp_le_cases le x y) as [[Hc Ho] | [[Hc Ho] | [Hc Ho]]];
      destruct (utf16_comp_le_cases le y x) as [[Hc' Ho'] | [[Hc' Ho'] | [Hc' Ho']]];
      try lia; rewrite Hc, Hc'; simpl.
    + left. repeat split. intros E. inversion E; subst. lia.
    + apply htobe16_inj in Ho; [|assumption..]. subst y.
      destruct (IH lb Ha' Hb') as [(H1 & H2 & H3) | [(H1 & H2 & H3) | (H1 & H2 & H3)]].
      * left. repeat split; try assumption. congruence.
      * right; left. repeat split; try assumption. congruence.
      * right; right. repeat split; try assumption. congruence.
    + right; left. repeat split. intros E. inversion E; subst. lia.
Qed.

(** ** The public comparators on the content of valid views *)

Lemma valid_view_size (mem : memory) (s : IntegratedString) :
  valid_view mem s -> 0 <= size_ s < SIZE_MOD.
Proof. now intros [H _]. Qed.

Lemma operator_lt_content (le : bool) (mem : memory) (a b : IntegratedString) :
  valid_view mem a -> valid_view mem b ->
  operator_lt le mem a b =
  Ret (lex_less le (significant (content mem a)) (significant (content mem b))).
Proof.
  intros Ha Hb. unfold operator_lt.
  pose proof (valid_view_size _ _ Ha). pose proof (valid_view_size _ _ Hb).
  apply directionalCompare_scan;
    try (now apply reads_forward); try reflexivity; lia.
Qed.

Lemma compareReversed_content (le : bool) (mem : memory) (a b : IntegratedString) :
  valid_view mem a -> valid_view mem b ->
  compareReversed le mem a b =
  Ret (lex_less le (significant (rev (content mem a)))
                   (significant (rev (content mem b)))).
Proof.
  intros Ha Hb. unfold compareReversed, getSize.
  pose proof (valid_view_size _ _ Ha). pose proof (valid_view_size _ _ Hb).
  apply directionalCompare_scan;
    try (now apply reads_backward); try reflexivity; lia.
Qed.

Lemma compare_toward_scan (le : bool) (mem : memory) (d : direction)
    (a b : IntegratedString) :
  valid_view mem a -> valid_view mem b ->
  compare_toward le mem d a b =
  Ret (lex_less le (significant (scan d mem a)) (significant (scan d mem b))).
Proof.
  intros Ha Hb. destruct d; simpl.
  - now apply operator_lt_content.
  - now apply compareReversed_content.
Qed.

(** Validity of a view and range of the units, on concrete data. *)
Ltac concrete_valid :=
  split;
  [ unfold SIZE_MOD, SIZE_BITS; simpl; lia
  | first [ left; reflexivity
          | right; eexists; split; [reflexivity | simpl; lia] ] ].

Ltac concrete_char16 :=
  unfold is_char16, CHAR16_MOD; repeat (constructor; [lia|]); constructor.

Lemma nonempty_rev {A : Type} (l : list A) : nonempty (rev l) = nonempty l.
Proof.
  destruct l as [|x l]; [reflexivity|].
  simpl. destruct (rev l); reflexivity.
Qed.

Lemma empty_view_valid (mem : memory) (e : IntegratedString) :
  size_ e = 0 -> valid_view mem e.
Proof.
  intros H. split; [rewrite H; unfold SIZE_MOD, SIZE_BITS; simpl; lia | now left].
Qed.

Lemma empty_view_content (mem : memory) (e : IntegratedString) :
  size_ e = 0 -> content mem e = [].
Proof.
  intros H. unfold content. rewrite H. now destruct (ptr_ e).
Qed.

(** ** The tests of [test.cpp] on the comparator *)

Example ComparatorCorrectRussian :
  IntegratedString_of_ptr test_memory 0 = Ret putin /\
  IntegratedString_of_ptr test_memory 6 = Ret obama /\
  operator_lt true test_memory obama putin = Ret true /\
  reverseStringComparator true test_memory obama putin = Ret true.
Proof. repeat split; reflexivity. Qed.

Example CheckProhibitedSymbols :
  IntegratedString_of_ptr test_memory 12 = Ret prohibited /\
  IntegratedString_of_ptr test_memory 33 = Ret empty /\
  operator_lt true test_memory prohibited empty = Ret false /\
  operator_lt true test_memory empty prohibited = Ret false.
Proof. repeat split; reflexivity. Qed.

(** ** C1: when the directional comparator answers less *)

(** C1, as stated, fails: forward, the one-unit view [a] is reported less
    than the one-unit view [b], and [a] is not a proper prefix of [b]; the
    answer came from the [return true] inside the loop, at the first pair of
    significant units that differ. *)
Lemma less_without_prefix :
  ~ (compare_toward true [97; 98] Forward
       (mkIntegratedString (Some 0) 1) (mkIntegratedString (Some 1) 1) = Ret true <->
     strict_prefix
       (significant (scan Forward [97; 98] (mkIntegratedString (Some 0) 1)))
       (significant (scan Forward [97; 98] (mkIntegratedString (Some 1) 1)))).
Proof.
  intros [H _]. destruct (H eq_refl) as (t & _ & He). discriminate He.
Qed.

(** C1, amended: for every pair of valid views and every direction the
    directional comparator returns, and it returns less if and only if either
    the significant units of [a] in the scanned direction are a proper prefix
    of those of [b] (the cursor of [a] is exhausted and the cursor of [b] is
    not), or the two sequences of significant units first differ at a
    position where the unit of [a] is below the unit of [b] under
    [utf16_comp_le]; when the significant units are the same (both cursors
    exhaust together) the answer is not-less. *)
Theorem directional_less_iff (le : bool) (mem : memory) (d : direction)
    (a b : IntegratedString) :
  Forall is_char16 mem -> valid_view mem a -> valid_view mem b ->
  exists r : bool,
    compare_toward le mem d a b = Ret r /\
    (r = true <->
     strict_prefix (significant (scan d mem a)) (significant (scan d mem b)) \/
     first_difference_below le (significant (scan d mem a)) (significant (scan d mem b))) /\
    (significant (scan d mem a) = significant (scan d mem b) -> r = false).
Proof.
  intros Hmem Ha Hb.
  exists (lex_less le (significant (scan d mem a)) (significant (scan d mem b))).
  split; [now apply compare_toward_scan|]. split.
  - apply lex_less_iff; now apply scan_char16.
  - intros ->. apply lex_less_irrefl.
Qed.

Lemma directional_less_iff_witness :
  exists r : bool,
    compare_toward true test_memory Backward obama putin = Ret r /\
    (r = true <->
     strict_prefix (significant (scan Backward test_memory obama))
                   (significant (scan Backward test_memory putin)) \/
     first_difference_below true (significant (scan Backward test_memory obama))
                                 (significant (scan Backward test_memory putin))) /\
    (significant (scan Backward test_memory obama) =
     significant (scan Backward test_memory putin) -> r = false).
Proof.
  apply (directional_less_iff true test_memory Backward obama putin).
  - unfold test_memory. concrete_char16.
  - unfold obama, test_memory. concrete_valid.
  - unfold putin, test_memory. concrete_valid.
Defined.

(** ** C2: zero-length views *)

(** C2, as stated, fails: forward, the zero-length view is reported less
    than a view that holds one significant unit. *)
Lemma empty_less_than_significant :
  size_ (mkIntegratedString (Some 0) 0) = 0 /\
  compare_toward true [97] Forward
    (mkIntegratedString (Some 0) 0) (mkIntegratedString (Some 0) 1) = Ret true.
Proof. split; reflexivity. Qed.

(** C2, amended: in both directions no view is ever reported less than a
    zero-length view, and a zero-length view is reported less than a view
    exactly when that view holds at least one significant unit; so a
    zero-length view and a view that is empty or made of skipped symbols
    only compare not-less in both argument positions. *)
Theorem empty_view_compare (le : bool) (mem : memory) (d : direction)
    (e v : IntegratedString) :
  size_ e = 0 -> valid_view mem v ->
  compare_toward le mem d v e = Ret false /\
  compare_toward le mem d e v = Ret (nonempty (significant (content mem v))).
Proof.
  intros He Hv. pose proof (empty_view_valid mem e He) as Hve.
  rewrite !compare_toward_scan by assumption.
  assert (Hs : significant (scan d mem e) = []).
  { destruct d; simpl; now rewrite (empty_view_content mem e He). }
  rewrite Hs, lex_less_nil_l, lex_less_nil_r. split; [reflexivity|].
  destruct d; simpl; [reflexivity|].
  now rewrite significant_rev, nonempty_rev.
Qed.

Lemma empty_view_compare_witness :
  compare_toward true test_memory Backward prohibited empty = Ret false /\
  compare_toward true test_memory Backward empty prohibited =
  Ret (nonempty (significant (content test_memory prohibited))).
Proof.
  apply (empty_view_compare true test_memory Backward empty prohibited).
  - reflexivity.
  - unfold prohibited, test_memory. concrete_valid.
Defined.

(** ** C3: the forward comparator is a trichotomy *)

(** C3: for every pair of valid views (empty or not) exactly one of
    [a < b], [b < a] and equality of the significant units of [a] and [b]
    holds; in particular [a < b] and [b < a] are never both true. *)
Theorem forward_trichotomy (le : bool) (mem : memory) (a b : IntegratedString) :
  Forall is_char16 mem -> valid_view mem a -> valid_view mem b ->
  exists x y : bool,
    operator_lt le mem a b = Ret x /\
    operator_lt le mem b a = Ret y /\
    ((x = true /\ y = false /\
      significant (content mem a) <> significant (content mem b)) \/
     (x = false /\ y = true /\
      significant (content mem a) <> significant (content mem b)) \/
     (x = false /\ y = false /\
      significant (content mem a) = significant (content mem b))).
Proof.
  intros Hmem Ha Hb.
  exists (lex_less le (significant (content mem a)) (significant (content mem b))),
         (lex_less le (significant (content mem b)) (significant (content mem a))).
  split; [now apply operator_lt_content|].
  split; [now apply operator_lt_content|].
  apply lex_less_trichotomy; now apply significant_char16, content_char16.
Qed.

Lemma forward_trichotomy_witness :
  exists x y : bool,
    operator_lt true test_memory obama putin = Ret x /\
    operator_lt true test_memory putin obama = Ret y /\
    ((x = true /\ y = false /\
      significant (content test_memory obama) <> significant (content test_memory putin)) \/
     (x = false /\ y = true /\
      significant (content test_memory obama) <> significant (content test_memory putin)) \/
     (x = false /\ y = false /\
      significant (content test_memory obama) = significant (content test_memory putin))).
Proof.
  apply (forward_trichotomy true test_memory obama putin).
  - unfold test_memory. concrete_char16.
  - unfold obama, test_memory. concrete_valid.
  - unfold putin, test_memory. concrete_valid.
Defined.

(** ** C4: the backward comparator is the forward one on reversed content *)

(** C4: when the views [ra] and [rb] hold the units of [a] and [b] in
    reverse order, [compareReversed] on [a], [b] returns what [operator <]
    returns on [ra], [rb]. *)
Theorem compareReversed_is_forward_on_reverse (le : bool) (mem mem' : memory)
    (a b ra rb : IntegratedString) :
  valid_view mem a -> valid_view mem b ->
  valid_view mem' ra -> valid_view mem' rb ->
  content mem' ra = rev (content mem a) ->
  content mem' rb = rev (content mem b) ->
  compareReversed le mem a b = operator_lt le mem' ra rb.
Proof.
  intros Ha Hb Hra Hrb Ea Eb.
  rewrite compareReversed_content, operator_lt_content by assumption.
  now rewrite Ea, Eb.
Qed.

Lemma compareReversed_is_forward_on_reverse_witness :
  compareReversed true test_memory obama putin =
  operator_lt true mirror_memory amabo nitup.
Proof.
  apply (compareReversed_is_forward_on_reverse true test_memory mirror_memory
           obama putin amabo nitup).
  - unfold obama, test_memory. concrete_valid.
  - unfold putin, test_memory. concrete_valid.
  - unfold amabo, mirror_memory. concrete_valid.
  - unfold nitup, mirror_memory. concrete_valid.
  - reflexivity.
  - reflexivity.
Defined.

(** ** C10: the backward comparator never leaves its views *)

(** C10: for every pair of valid views, zero-length ones included,
    [compareReversed] returns a boolean: no load of the comparison falls
    outside the memory, although the start offset [size - 1] of a
    zero-length view wraps around to the largest [size_t]. *)
Theorem compareReversed_safe (le : bool) (mem : memory) (a b : IntegratedString) :
  valid_view mem a -> valid_view mem b ->
  (getSize a = 0 -> wrap (getSize a - 1) = SIZE_MOD - 1) /\
  exists r : bool, compareReversed le mem a b = Ret r.
Proof.
  intros Ha Hb. split.
  - intros ->. reflexivity.
  - eexists. now apply compareReversed_content.
Qed.

Lemma compareReversed_safe_witness :
  (getSize empty = 0 -> wrap (getSize empty - 1) = SIZE_MOD - 1) /\
  exists r : bool, compareReversed true test_memory empty putin = Ret r.
Proof.
  apply (compareReversed_safe true test_memory empty putin).
  - unfold empty, test_memory. concrete_valid.
  - unfold putin, test_memory. concrete_valid.
Defined.

(** ** The earlier revision of the comparator *)

(** The bound taken from the left view ends the loop too early when the
    right view is the longer one: [a] against [.ab] is reported not-less by
    the earlier revision, less by [Text.h]. *)
Example legacy_ends_early :
  Legacy.operator_lt true [97; 46; 97; 98]
    (mkIntegratedString (Some 0) 1) (mkIntegratedString (Some 1) 3) = Ret false /\
  operator_lt true [97; 46; 97; 98]
    (mkIntegratedString (Some 0) 1) (mkIntegratedString (Some 1) 3) = Ret true.
Proof. split; reflexivity. Qed.

(** It lets the right cursor leave its view when the left view is the longer
    one: [ab] against [a], the right view ending the memory. *)
Example legacy_overruns :
  Legacy.operator_lt true [97; 98; 97]
    (mkIntegratedString (Some 0) 2) (mkIntegratedString (Some 2) 1) = Fault /\
  operator_lt true [97; 98; 97]
    (mkIntegratedString (Some 0) 2) (mkIntegratedString (Some 2) 1) = Ret false.
Proof. split; reflexivity. Qed.

(** ** Blocks *)

Lemma memcpy_fresh {A : Type} (d : A) (src : list A) (n : Z) :
  0 <= n <= Z.of_nat (length src) ->
  memcpy (repeat d (Z.to_nat n)) src n = Ret (firstn (Z.to_nat n) src).
Proof.
  intros H. unfold memcpy. rewrite repeat_length.
  replace ((0 <=? n) && (n <=? Z.of_nat (Z.to_nat n)) && (n <=? Z.of_nat (length src)))
    with true by (symmetry; rewrite !andb_true_iff, !Z.leb_le; lia).
  rewrite skipn_all2 by (rewrite repeat_length; lia).
  now rewrite app_nil_r.
Qed.

Lemma load_block_valid (mem : memory) (s : IntegratedString) :
  valid_view mem s -> load_block mem (getPtr s) (getSize s) = Ret (content mem s).
Proof.
  intros [Hs [H0 | (base & Hp & Hb & Hend)]]; unfold load_block, getPtr, getSize.
  - rewrite H0. simpl. now rewrite (empty_view_content mem s H0).
  - destruct (size_ s =? 0) eqn:Hz.
    + apply Z.eqb_eq in Hz. now rewrite (empty_view_content mem s Hz).
    + rewrite Hp.
      replace ((0 <=? base) && (0 <=? size_ s) && (base + size_ s <=? Z.of_nat (length mem)))
        with true by (symmetry; rewrite !andb_true_iff, !Z.leb_le; lia).
      unfold content. now rewrite Hp.
Qed.

Lemma array_get_nth {A : Type} (d : A) (a : list A) (i : Z) :
  0 <= i < Z.of_nat (length a) -> array_get a i = Ret (nth (Z.to_nat i) a d).
Proof.
  intros H. unfold array_get.
  replace ((0 <=? i) && (i <? Z.of_nat (length a))) with true
    by (symmetry; rewrite andb_true_iff, Z.leb_le, Z.ltb_lt; lia).
  rewrite (nth_error_nth' a d) by lia. reflexivity.
Qed.

(** ** C6: the rendering *)

Lemma print_loop_spec (t : Text) :
  lines_in_block t -> Forall (valid_view (buffer_ t)) (current_order t) ->
  forall (fuel : nat) (i : Z) (output : list Z),
    0 <= i <= nLines_ t -> (Z.to_nat (nLines_ t - i) <= fuel)%nat ->
    print_loop fuel t i output =
    Ret (output ++
         flat_map (fun s => content (buffer_ t) s ++ [UTF16_NEWLINE])
                  (skipn (Z.to_nat i) (current_order t))).
Proof.
  intros [Hn Hblock] Hviews.
  assert (Hlen : length (current_order t) = Z.to_nat (nLines_ t))
    by (unfold current_order; rewrite length_firstn; lia).
  induction fuel as [|fuel IH]; intros i output Hi Hfuel.
  - assert (i = nLines_ t) by lia. subst i. simpl. rewrite Z.ltb_irrefl.
    rewrite skipn_all2 by lia. simpl. now rewrite app_nil_r.
  - simpl. destruct (i <? nLines_ t) eqn:Hlt.
    + apply Z.ltb_lt in Hlt.
      rewrite (array_get_nth default_string) by lia. simpl bind.
      assert (Hnth : nth (Z.to_nat i) (strings_ t) default_string =
                     nth (Z.to_nat i) (current_order t) default_string).
      { unfold current_order. rewrite nth_firstn.
        replace (Z.to_nat i <? Z.to_nat (nLines_ t))%nat with true
          by (symmetry; apply Nat.ltb_lt; lia).
        reflexivity. }
      rewrite Hnth. rewrite load_block_valid.
      * simpl bind. rewrite wrap_small by lia. rewrite IH by lia.
        rewrite (skipn_nth_cons default_string (current_order t) (Z.to_nat i)) by lia.
        simpl flat_map. rewrite <- !app_assoc.
        now replace (Z.to_nat (i + 1)) with (S (Z.to_nat i)) by lia.
      * rewrite Forall_forall in Hviews. apply Hviews, nth_In. lia.
    + apply Z.ltb_ge in Hlt. assert (i = nLines_ t) by lia. subst i.
      rewrite skipn_all2 by lia. simpl. now rewrite app_nil_r.
Qed.

(** C6, as stated, fails: the separator written after each line is the
    plain newline unit 0x000A, the constant [char16_t(0xfeff000a)] keeping
    the low 16 bits only; so is the rendering of a table of two lines. *)
Lemma separator_is_plain_newline :
  ~ UTF16_NEWLINE <> 0x000A /\
  printToFile sample_table = Ret [0xfeff; 98; 0x000A; 97; 0x000A].
Proof.
  split; [intros H; now apply H | reflexivity].
Qed.

(** C6, amended: a rendering pass over a loaded table writes exactly one
    leading unit, the first unit of the buffer, then for each line of the
    current order its content followed by exactly one separator unit; that
    separator is [UTF16_NEWLINE], whose value is the plain newline 0x000A. *)
Theorem printToFile_rendering (t : Text) :
  table_ok t ->
  printToFile t = Ret (rendering (buffer_ t) (hd 0 (buffer_ t)) (current_order t)) /\
  UTF16_NEWLINE = LF.
Proof.
  intros (Hblock & Hbuf & Hviews). split; [|reflexivity].
  unfold printToFile, load_block. simpl.
  destruct (buffer_ t) as [|marker rest] eqn:Eb; [contradiction|].
  simpl length. replace (1 <=? Z.of_nat (S (length rest))) with true
    by (symmetry; apply Z.leb_le; lia).
  simpl bind. rewrite print_loop_spec; try assumption.
  - rewrite Eb. reflexivity.
  - now rewrite Eb.
  - destruct Hblock. lia.
  - lia.
Qed.

Lemma sample_table_ok : table_ok sample_table.
Proof.
  split; [|split].
  - unfold lines_in_block, SIZE_MOD, SIZE_BITS. simpl. lia.
  - discriminate.
  - unfold current_order. simpl.
    apply Forall_cons; [concrete_valid|].
    apply Forall_cons; [concrete_valid|]. apply Forall_nil.
Defined.

Lemma printToFile_rendering_witness :
  printToFile sample_table =
  Ret (rendering (buffer_ sample_table) (hd 0 (buffer_ sample_table))
                 (current_order sample_table)) /\
  UTF16_NEWLINE = LF.
Proof.
  apply (printToFile_rendering sample_table). exact sample_table_ok.
Defined.

(** ** C7: snapshot, reorder, restore *)

Lemma insert_sorted_perm (comp : IntegratedString -> IntegratedString -> bool)
    (x : IntegratedString) (l : list IntegratedString) :
  Permutation (x :: l) (insert_sorted comp x l).
Proof.
  induction l as [|y l IH]; simpl; [apply Permutation_refl|].
  destruct (comp x y); [apply Permutation_refl|].
  eapply perm_trans; [apply perm_swap|]. now apply perm_skip.
Qed.

Lemma insertion_sort_perm (comp : IntegratedString -> IntegratedString -> bool)
    (l : list IntegratedString) :
  Permutation l (insertion_sort comp l).
Proof.
  induction l as [|x l IH]; simpl; [apply perm_nil|].
  eapply perm_trans; [apply perm_skip, IH | apply insert_sorted_perm].
Qed.

Lemma getOrder_current (t : Text) :
  lines_in_block t -> getOrder t = Ret (mkLineOrder (current_order t)).
Proof.
  intros [Hn Hblock]. unfold getOrder. rewrite memcpy_fresh by lia. reflexivity.
Qed.

(** C7: for every table whose line count lies within its block and every
    comparator with which [std::sort] permutes the current order, the
    snapshot taken by [getOrder], then [sort], then [setOrder] of the
    snapshot all return, and the table is again the table of the snapshot:
    same lines at the same positions. The snapshot is a value of its own,
    which [sort] does not touch. *)
Theorem snapshot_sort_restore
    (std_sort : (IntegratedString -> IntegratedString -> bool) ->
                list IntegratedString -> list IntegratedString)
    (comp : IntegratedString -> IntegratedString -> bool) (t : Text) :
  Permutation (current_order t) (std_sort comp (current_order t)) ->
  lines_in_block t ->
  exists order sorted,
    getOrder t = Ret order /\
    lines_ order = current_order t /\
    sort std_sort comp t = Ret sorted /\
    Permutation (current_order t) (current_order sorted) /\
    setOrder sorted order = Ret t.
Proof.
  intros Hperm [Hn Hblock].
  exists (mkLineOrder (current_order t)).
  eexists. split; [apply getOrder_current; now split|].
  split; [reflexivity|].
  unfold sort.
  replace ((0 <=? nLines_ t) && (nLines_ t <=? Z.of_nat (length (strings_ t))))
    with true by (symmetry; rewrite andb_true_iff, !Z.leb_le; lia).
  split; [reflexivity|].
  assert (Hlen : length (std_sort comp (firstn (Z.to_nat (nLines_ t)) (strings_ t))) =
                 Z.to_nat (nLines_ t)).
  { fold (current_order t). rewrite <- (Permutation_length Hperm).
    unfold current_order. rewrite length_firstn. lia. }
  split.
  - unfold current_order at 2. simpl.
    rewrite firstn_app, Hlen, Nat.sub_diag, firstn_O, app_nil_r.
    rewrite firstn_all2 by lia. exact Hperm.
  - unfold setOrder, memcpy. simpl.
    assert (Hcur : length (current_order t) = Z.to_nat (nLines_ t))
      by (unfold current_order; rewrite length_firstn; lia).
    rewrite Hcur, Z2Nat.id, Z.eqb_refl by lia. simpl negb. cbv iota.
    rewrite length_app, Hlen, length_skipn.
    replace ((0 <=? nLines_ t) &&
             (nLines_ t <=? Z.of_nat (Z.to_nat (nLines_ t) +
                                      (length (strings_ t) - Z.to_nat (nLines_ t)))) &&
             (nLines_ t <=? nLines_ t))
      with true by (symmetry; rewrite !andb_true_iff, !Z.leb_le; lia).
    simpl bind. rewrite firstn_all2 by lia.
    rewrite skipn_app, Hlen, Nat.sub_diag, skipn_O.
    rewrite (skipn_all2 (std_sort comp _)) by lia. simpl app.
    unfold current_order. rewrite firstn_skipn. now destruct t.
Qed.

Lemma snapshot_sort_restore_witness :
  exists order sorted,
    getOrder sample_table = Ret order /\
    lines_ order = current_order sample_table /\
    sort insertion_sort (as_predicate (operator_lt true (buffer_ sample_table)))
         sample_table = Ret sorted /\
    Permutation (current_order sample_table) (current_order sorted) /\
    setOrder sorted order = Ret sample_table.
Proof.
  apply (snapshot_sort_restore insertion_sort
           (as_predicate (operator_lt true (buffer_ sample_table))) sample_table).
  - apply insertion_sort_perm.
  - unfold lines_in_block, SIZE_MOD, SIZE_BITS. simpl. lia.
Defined.

(** The sort of the witness does reorder the table. *)
Example sample_table_sorted :
  sort insertion_sort (as_predicate (operator_lt true (buffer_ sample_table)))
       sample_table =
  Ret (mkText (buffer_ sample_table) 4 2
              [mkIntegratedString (Some 1) 1; mkIntegratedString (Some 3) 1]
              (original_ sample_table)).
Proof. reflexivity. Qed.

(** ** C9: a snapshot of the wrong size *)

(** C9, as stated, fails: [setOrder] with a snapshot of one line on a table
    of two lines does not return to its caller, with the table as it was or
    otherwise; the failed [assert] stops the program. *)
Lemma setOrder_mismatch_does_not_return :
  Z.of_nat (length (lines_ (mkLineOrder [mkIntegratedString (Some 1) 1]))) <>
  nLines_ sample_table /\
  ~ exists t', setOrder sample_table (mkLineOrder [mkIntegratedString (Some 1) 1]) = Ret t'.
Proof.
  split; [discriminate|]. intros [t' H]. discriminate H.
Qed.

(** C9, amended: [setOrder] with a snapshot whose length differs from the
    line count of the table stops at its [assert], before the copy: no
    element of the order is written, and the call does not return (the
    program is aborted, as for a programming error). *)
Theorem setOrder_size_mismatch (t : Text) (order : LineOrder) :
  Z.of_nat (length (lines_ order)) <> nLines_ t ->
  setOrder t order = Abort.
Proof.
  intros H. unfold setOrder. apply Z.eqb_neq in H. now rewrite H.
Qed.

Lemma setOrder_size_mismatch_witness :
  setOrder sample_table (mkLineOrder [mkIntegratedString (Some 1) 1]) = Abort.
Proof.
  apply (setOrder_size_mismatch sample_table (mkLineOrder [mkIntegratedString (Some 1) 1])).
  simpl. lia.
Defined.

(** ** C8: the split *)

Lemma count_units_cons (symbol c : Z) (l : list Z) :
  count_units symbol (c :: l) =
  if c =? symbol then S (count_units symbol l) else count_units symbol l.
Proof.
  unfold count_units. simpl. now destruct (c =? symbol).
Qed.

Lemma count_units_le (symbol : Z) (l : list Z) :
  (count_units symbol l <= length l)%nat.
Proof. unfold count_units. apply filter_length_le. Qed.

Lemma utf16_count_from_spec (symbol : Z) (l tail : list Z) :
  Forall (fun c => c <> NUL) l ->
  forall answer,
    0 <= answer -> answer + Z.of_nat (length l) < SIZE_MOD ->
    utf16_count_from (l ++ NUL :: tail) symbol answer =
    Ret (answer + Z.of_nat (count_units symbol l)).
Proof.
  induction 1 as [|c l Hc Hl IH]; intros answer H0 Hbound.
  - simpl. f_equal. unfold count_units. simpl. lia.
  - simpl app. simpl utf16_count_from.
    apply Z.eqb_neq in Hc. rewrite Hc. simpl negb. cbv iota.
    pose proof (count_units_le symbol l) as Hcnt.
    simpl length in Hbound. rewrite count_units_cons.
    destruct (c =? symbol).
    + rewrite wrap_small by lia. rewrite IH by lia. f_equal. lia.
    + rewrite wrap_small by lia. rewrite IH by lia. f_equal. lia.
Qed.

Lemma array_set_app {A : Type} (xs ys : list A) (y x : A) (i : Z) :
  i = Z.of_nat (length xs) ->
  array_set (xs ++ y :: ys) i x = Ret (xs ++ x :: ys).
Proof.
  intros ->. unfold array_set.
  replace ((0 <=? Z.of_nat (length xs)) &&
           (Z.of_nat (length xs) <? Z.of_nat (length (xs ++ y :: ys))))
    with true
    by (symmetry; rewrite andb_true_iff, Z.leb_le, Z.ltb_lt, length_app; simpl; lia).
  rewrite Nat2Z.id. f_equal.
  rewrite firstn_app, Nat.sub_diag, firstn_O, app_nil_r, firstn_all.
  f_equal. f_equal.
  change (S (length xs)) with (1 + length xs)%nat.
  rewrite <- skipn_skipn.
  rewrite skipn_app, Nat.sub_diag, skipn_all. reflexivity.
Qed.

Lemma array_get_app {A : Type} (xs ys : list A) (y : A) (i : Z) :
  i = Z.of_nat (length xs) ->
  array_get (xs ++ y :: ys) i = Ret y.
Proof.
  intros ->. unfold array_get.
  replace ((0 <=? Z.of_nat (length xs)) &&
           (Z.of_nat (length xs) <? Z.of_nat (length (xs ++ y :: ys))))
    with true
    by (symmetry; rewrite andb_true_iff, Z.leb_le, Z.ltb_lt, length_app; simpl; lia).
  rewrite Nat2Z.id, nth_error_app2, Nat.sub_diag by lia. reflexivity.
Qed.

Lemma split_views_length (l : list Z) :
  forall beginning len,
    length (split_views beginning len l) = S (count_units LF l).
Proof.
  induction l as [|c l IH]; intros beginning len; [reflexivity|].
  simpl. rewrite count_units_cons.
  destruct (c =? LF); simpl; now rewrite IH.
Qed.

Lemma split_on_length (l : list Z) :
  length (split_on LF l) = S (count_units LF l).
Proof.
  induction l as [|c l IH]; [reflexivity|].
  simpl. rewrite count_units_cons.
  destruct (c =? LF); simpl; [now rewrite IH|].
  destruct (split_on LF l); simpl in *; [discriminate | assumption].
Qed.

(** The loop of the split, started at index [i] with the units [l] still to
    scan: it blanks the separators of [l] and, with the store of the last
    line that follows the loop, fills the next free slots of [strings_] with
    the views of [l]. *)
Lemma split_loop_spec (post : list Z) (nSymbols : Z) (l : list Z) :
  nSymbols < SIZE_MOD ->
  forall (fuel : nat) (pre : list Z) (done todo : list IntegratedString)
         (cLen cBeg : Z),
    nSymbols = Z.of_nat (length pre) + Z.of_nat (length l) ->
    (length l <= fuel)%nat ->
    0 <= cLen -> 0 <= cBeg -> cBeg + cLen = Z.of_nat (length pre) ->
    (count_units LF l < length todo)%nat ->
    Z.of_nat (length done) + Z.of_nat (length todo) < SIZE_MOD ->
    exists st,
      split_loop fuel nSymbols (Z.of_nat (length pre))
        (mkSplit (pre ++ l ++ post) (done ++ todo) cLen (Z.of_nat (length done)) cBeg)
      = Ret st /\
      sp_buffer st = pre ++ blanked l ++ post /\
      array_set (sp_strings st) (currLine st)
        (mkIntegratedString (Some (currBeginning st)) (currLength st)) =
      Ret (done ++ split_views cBeg cLen l ++ skipn (S (count_units LF l)) todo).
Proof.
  intros Hn.
  induction l as [|c l IH]; intros fuel pre done todo cLen cBeg Hsym Hfuel HcLen HcBeg Hbeg Htodo Hstr.
  - exists (mkSplit (pre ++ [] ++ post) (done ++ todo) cLen (Z.of_nat (length done)) cBeg).
    simpl length in Hsym.
    assert (Hexit : split_loop fuel nSymbols (Z.of_nat (length pre))
              (mkSplit (pre ++ [] ++ post) (done ++ todo) cLen (Z.of_nat (length done)) cBeg) =
            Ret (mkSplit (pre ++ [] ++ post) (done ++ todo) cLen (Z.of_nat (length done)) cBeg)).
    { destruct fuel; simpl;
        (replace (Z.of_nat (length pre) <? nSymbols) with false
           by (symmetry; apply Z.ltb_ge; lia)); reflexivity. }
    split; [exact Hexit|]. split; [reflexivity|].
    simpl. destruct todo as [|v todo]; [simpl in Htodo; lia|].
    simpl. now apply array_set_app.
  - destruct fuel as [|fuel]; [simpl in Hfuel; lia|].
    simpl length in Hsym, Hfuel.
    simpl split_loop.
    replace (Z.of_nat (length pre) <? nSymbols) with true
      by (symmetry; apply Z.ltb_lt; lia).
    simpl app at 1. rewrite (array_get_app pre (l ++ post) c) by reflexivity.
    simpl bind. rewrite (wrap_small (Z.of_nat (length pre) + 1)) by lia.
    assert (Hpre : Z.of_nat (length pre) + 1 = Z.of_nat (length (pre ++ [c])))
      by (rewrite length_app; simpl; lia).
    rewrite count_units_cons in Htodo |- *.
    destruct (c =? LF) eqn:Hc; simpl negb; cbv iota.
    + apply Z.eqb_eq in Hc. subst c.
      destruct todo as [|v todo]; [simpl in Htodo; lia|].
      rewrite (array_set_app done todo v _ (Z.of_nat (length done))) by reflexivity.
      simpl bind.
      rewrite (array_set_app pre (l ++ post) LF NUL) by reflexivity.
      simpl bind.
      rewrite (wrap_small (Z.of_nat (length done) + 1))
        by (simpl length in Hstr; lia).
      replace (pre ++ NUL :: l ++ post) with ((pre ++ [NUL]) ++ l ++ post)
        by (rewrite <- app_assoc; reflexivity).
      replace (done ++ mkIntegratedString (Some cBeg) cLen :: todo)
        with ((done ++ [mkIntegratedString (Some cBeg) cLen]) ++ todo)
        by (rewrite <- app_assoc; reflexivity).
      assert (Hdone : Z.of_nat (length done) + 1 =
                      Z.of_nat (length (done ++ [mkIntegratedString (Some cBeg) cLen])))
        by (rewrite length_app; simpl; lia).
      rewrite Hdone.
      assert (HpreN : Z.of_nat (length pre) + 1 = Z.of_nat (length (pre ++ [NUL])))
        by (rewrite length_app; simpl; lia).
      rewrite HpreN.
      destruct (IH fuel (pre ++ [NUL]) (done ++ [mkIntegratedString (Some cBeg) cLen])
                   todo 0 (Z.of_nat (length (pre ++ [NUL]))))
        as (st & He & Hbuf & Hset);
        try (rewrite ?length_app; simpl in *; lia).
      exists st. split; [exact He|]. split.
      * rewrite Hbuf. simpl blanked. rewrite <- app_assoc. reflexivity.
      * rewrite Hset, <- app_assoc. cbn [split_views skipn app].
        rewrite Z.eqb_refl. cbn [app]. rewrite <- HpreN.
        replace (cBeg + cLen + 1) with (Z.of_nat (length pre) + 1) by lia.
        reflexivity.
    + rewrite (wrap_small (cLen + 1)) by lia.
      replace (pre ++ c :: l ++ post) with ((pre ++ [c]) ++ l ++ post)
        by (rewrite <- app_assoc; reflexivity).
      rewrite Hpre.
      destruct (IH fuel (pre ++ [c]) done todo (cLen + 1) cBeg)
        as (st & He & Hbuf & Hset);
        try (rewrite ?length_app; simpl in *; lia).
      exists st. split; [exact He|]. split.
      * rewrite Hbuf. simpl blanked. rewrite Hc. rewrite <- app_assoc. reflexivity.
      * rewrite Hset. simpl split_views. rewrite Hc. reflexivity.
Qed.

Lemma split_on_nonempty (sep : Z) (l : list Z) : split_on sep l <> [].
Proof.
  destruct l as [|c l]; simpl; [discriminate|].
  destruct (c =? sep); [discriminate|].
  destruct (split_on sep l); discriminate.
Qed.

Lemma join_split_on (sep : Z) (l : list Z) : join sep (split_on sep l) = l.
Proof.
  induction l as [|c l IH]; [reflexivity|].
  simpl split_on. pose proof (split_on_nonempty sep l) as Hne.
  destruct (c =? sep) eqn:Hc.
  - apply Z.eqb_eq in Hc. subst c.
    destruct (split_on sep l) as [|line lines]; [contradiction|].
    cbn [join app]. cbn [join] in IH. now rewrite IH.
  - destruct (split_on sep l) as [|line lines]; [contradiction|].
    destruct lines as [|line' lines].
    + simpl in *. now rewrite IH.
    + cbn [join app] in *. now rewrite IH.
Qed.

Lemma split_on_no_separator (sep : Z) (l : list Z) :
  Forall (fun line => ~ In sep line) (split_on sep l).
Proof.
  induction l as [|c l IH]; simpl.
  - constructor; [intros [] | constructor].
  - destruct (c =? sep) eqn:Hc.
    + constructor; [intros [] | assumption].
    + apply Z.eqb_neq in Hc.
      destruct (split_on sep l) as [|line lines]; [repeat constructor; simpl; intuition|].
      inversion IH as [|? ? Hline Hlines]; subst.
      constructor; [|assumption].
      simpl. intros [E | Hin]; [congruence | contradiction].
Qed.

Lemma content_at (pre acc rest : list Z) :
  content (pre ++ acc ++ rest)
    (mkIntegratedString (Some (Z.of_nat (length pre))) (Z.of_nat (length acc))) = acc.
Proof.
  unfold content. simpl. rewrite !Nat2Z.id.
  rewrite skipn_app, skipn_all, Nat.sub_diag. simpl.
  rewrite firstn_app, firstn_all, Nat.sub_diag, firstn_O. apply app_nil_r.
Qed.

(** In the blanked buffer the views of the split hold the runs of units
    between the separators. *)
Lemma split_views_content (post : list Z) (l : list Z) :
  forall pre acc,
    map (content (pre ++ acc ++ blanked l ++ post))
        (split_views (Z.of_nat (length pre)) (Z.of_nat (length acc)) l) =
    prepend acc (split_on LF l).
Proof.
  induction l as [|c l IH]; intros pre acc.
  - simpl. now rewrite content_at, app_nil_r.
  - cbn [split_views split_on blanked map].
    destruct (c =? LF) eqn:Hc.
    + cbn [map prepend]. rewrite content_at, app_nil_r. f_equal.
      specialize (IH (pre ++ acc ++ [NUL]) []).
      replace (Z.of_nat (length pre) + Z.of_nat (length acc) + 1)
        with (Z.of_nat (length (pre ++ acc ++ [NUL])))
        by (rewrite !length_app; simpl; lia).
      fold (blanked l).
      replace (pre ++ acc ++ (NUL :: blanked l) ++ post)
        with ((pre ++ acc ++ [NUL]) ++ [] ++ blanked l ++ post)
        by (rewrite <- !app_assoc; reflexivity).
      change (Z.of_nat (length (@nil Z))) with 0 in IH. rewrite IH.
      pose proof (split_on_nonempty LF l).
      destruct (split_on LF l); [contradiction | reflexivity].
    + specialize (IH pre (acc ++ [c])).
      replace (Z.of_nat (length acc) + 1) with (Z.of_nat (length (acc ++ [c])))
        by (rewrite length_app; simpl; lia).
      fold (blanked l).
      replace (pre ++ acc ++ (c :: blanked l) ++ post)
        with (pre ++ (acc ++ [c]) ++ blanked l ++ post)
        by (rewrite <- !app_assoc; reflexivity).
      rewrite IH.
      pose proof (split_on_nonempty LF l).
      destruct (split_on LF l); [contradiction|].
      simpl. now rewrite <- app_assoc.
Qed.

(** C8, as stated, fails: the first line does not start at the start of the
    file. For a file that holds a marker, [a], a separator and [b], the lines
    of the split are [a] and [b]; the runs between the separators of the whole
    file are the marker with [a], and [b]. *)
Lemma first_line_skips_first_unit :
  exists t,
    separateBufferIntoLines (mkText ([0xfeff; 97; 10; 98] ++ [0; 0]) 4 0 [] []) = Ret t /\
    map (content (buffer_ t)) (strings_ t) = [[97]; [98]] /\
    map (content (buffer_ t)) (strings_ t) <> split_on LF [0xfeff; 97; 10; 98].
Proof.
  exists (mkText [0xfeff; 97; 0; 98; 0; 0] 4 2
                 [mkIntegratedString (Some 1) 1; mkIntegratedString (Some 3) 1] []).
  split; [vm_compute; reflexivity|]. split; [vm_compute; reflexivity|].
  vm_compute. discriminate.
Qed.

(** The table the split leaves, for a file without a zero unit that does
    not start with a separator and is followed by a zero unit. *)
Lemma separateBufferIntoLines_result (file : list Z) (slack1 : Z) :
  Z.of_nat (length file) + 2 < SIZE_MOD ->
  Forall (fun c => c <> NUL) file ->
  hd 0 file <> LF ->
  separateBufferIntoLines
    (mkText (file ++ [NUL; slack1]) (Z.of_nat (length file)) 0 [] []) =
  Ret (mkText (firstn 1 file ++ blanked (tl file) ++ [NUL; slack1])
              (Z.of_nat (length file))
              (Z.of_nat (S (count_units LF (tl file))))
              (split_views 1 0 (tl file)) []).
Proof.
  intros Hlen Hnul Hhd.
  unfold separateBufferIntoLines. cbn [buffer_ nSymbols_ original_].
  unfold utf16_count.
  rewrite (utf16_count_from_spec LF file [slack1] Hnul 0) by lia.
  cbn [bind]. rewrite Z.add_0_l.
  pose proof (count_units_le LF file) as Hcnt.
  rewrite (wrap_small (Z.of_nat (count_units LF file) + 1)) by lia.
  replace (Z.to_nat (Z.of_nat (count_units LF file) + 1))
    with (S (count_units LF file)) by lia.
  destruct file as [|m body]; [reflexivity|].
  cbn [hd] in Hhd. cbn [tl firstn]. cbn [length] in Hlen.
  assert (Hm : count_units LF (m :: body) = count_units LF body).
  { rewrite count_units_cons. apply Z.eqb_neq in Hhd. now rewrite Hhd. }
  rewrite Hm. pose proof (count_units_le LF body) as Hcb.
  destruct (split_loop_spec [NUL; slack1] (Z.of_nat (length (m :: body))) body
              ltac:(simpl length; lia)
              (Z.to_nat (Z.of_nat (length (m :: body)))) [m] []
              (repeat default_string (S (count_units LF body))) 0 1)
    as (st & He & Hbuf & Hset).
  - simpl length. lia.
  - simpl length. lia.
  - lia.
  - lia.
  - reflexivity.
  - rewrite repeat_length. lia.
  - rewrite repeat_length. simpl length. lia.
  - change (Z.of_nat (length [m])) with 1 in He.
    change (Z.of_nat (length (@nil IntegratedString))) with 0 in He.
    cbn [app] in He |- *. rewrite He. cbn [bind]. rewrite Hset. cbn [bind].
    rewrite skipn_all2 by (rewrite repeat_length; lia).
    rewrite app_nil_r, Hbuf. cbn [app].
    do 2 f_equal. lia.
Qed.

(** Outside the conditions of the amended claim the split has no lines to
    show: with a zero unit inside the file, or without a zero unit after it,
    [utf16_count] and the loop of the split disagree on the number of lines
    or the count runs off the block; a file that starts with a separator gets
    one more slot than it has lines. *)
Example split_with_zero_unit :
  separateBufferIntoLines
    (mkText ([0xfeff; 97; 0; 10; 98; 10; 99] ++ [0; 0]) 7 0 [] []) = Fault.
Proof. vm_compute. reflexivity. Qed.

Example split_without_terminator :
  separateBufferIntoLines (mkText ([0xfeff; 97; 10; 98] ++ [5; 7]) 4 0 [] []) = Fault.
Proof. vm_compute. reflexivity. Qed.

Example split_after_leading_separator :
  separateBufferIntoLines (mkText ([10; 97; 10; 98] ++ [0; 0]) 4 0 [] []) =
  Ret (mkText [10; 97; 0; 98; 0; 0] 4 3
              [mkIntegratedString (Some 1) 1; mkIntegratedString (Some 3) 1;
               default_string] []).
Proof. vm_compute. reflexivity. Qed.

(** C8, amended: the first unit of the file is outside every line. For a
    file without a zero unit, whose first unit is not a separator and which is
    followed in the buffer by a zero unit, the split returns, and its lines are
    exactly the runs of units between consecutive separators of the file after
    its first unit: the first line spans from the second unit of the file to
    the first separator, the last from the last separator to the end of the
    file; joined by separators the lines give back the file after its first
    unit, and no line holds a separator. *)
Theorem separateBufferIntoLines_lines (file : list Z) (slack0 slack1 : Z) :
  Z.of_nat (length file) + 2 < SIZE_MOD ->
  Forall (fun c => c <> NUL) file ->
  hd 0 file <> LF ->
  slack0 = NUL ->
  exists t,
    separateBufferIntoLines
      (mkText (file ++ [slack0; slack1]) (Z.of_nat (length file)) 0 [] []) = Ret t /\
    nLines_ t = Z.of_nat (length (strings_ t)) /\
    map (content (buffer_ t)) (strings_ t) = split_on LF (tl file) /\
    join LF (split_on LF (tl file)) = tl file /\
    Forall (fun line => ~ In LF line) (split_on LF (tl file)).
Proof.
  intros Hlen Hnul Hhd ->.
  eexists. split; [now apply separateBufferIntoLines_result|].
  cbn [nLines_ strings_ buffer_].
  split; [now rewrite split_views_length|].
  split; [|split; [apply join_split_on | apply split_on_no_separator]].
  destruct file as [|m body].
  - reflexivity.
  - pose proof (split_views_content [NUL; slack1] body [m] []) as Hc.
    cbn [app length tl firstn] in Hc |- *. change (Z.of_nat 1) with 1 in Hc.
    change (Z.of_nat 0) with 0 in Hc. rewrite Hc.
    pose proof (split_on_nonempty LF body).
    destruct (split_on LF body); [contradiction | reflexivity].
Qed.

Lemma separateBufferIntoLines_lines_witness :
  exists t,
    separateBufferIntoLines
      (mkText ([0xfeff; 97; 10; 98; 10] ++ [0; 7]) (Z.of_nat (length [0xfeff; 97; 10; 98; 10]))
              0 [] []) = Ret t /\
    nLines_ t = Z.of_nat (length (strings_ t)) /\
    map (content (buffer_ t)) (strings_ t) = split_on LF (tl [0xfeff; 97; 10; 98; 10]) /\
    join LF (split_on LF (tl [0xfeff; 97; 10; 98; 10])) = tl [0xfeff; 97; 10; 98; 10] /\
    Forall (fun line => ~ In LF line) (split_on LF (tl [0xfeff; 97; 10; 98; 10])).
Proof.
  apply (separateBufferIntoLines_lines [0xfeff; 97; 10; 98; 10] 0 7).
  - unfold SIZE_MOD, SIZE_BITS. simpl. lia.
  - unfold NUL. repeat (constructor; [lia|]). constructor.
  - unfold LF. simpl. lia.
  - reflexivity.
Defined.

(** ** C5: the trim of trailing empty lines *)

(** When a line of the table is not empty, the trim stops just after the
    last such line. *)
Lemma shrink_loop_spec (pre : list IntegratedString) (s : IntegratedString)
    (empties : list IntegratedString) :
  size_ s <> 0 ->
  Forall (fun v => size_ v = 0) empties ->
  Z.of_nat (length (pre ++ s :: empties)) < SIZE_MOD ->
  forall (k fuel : nat),
    (k <= length empties)%nat -> (k <= fuel)%nat ->
    shrink_loop fuel (pre ++ s :: empties) (Z.of_nat (length pre) + 1 + Z.of_nat k) =
    Ret (Z.of_nat (length pre) + 1).
Proof.
  intros Hs Hempty Hlen. rewrite length_app in Hlen. simpl length in Hlen.
  induction k as [|k IH]; intros fuel Hk Hfuel.
  - rewrite Z.add_0_r.
    assert (Hget : array_get (pre ++ s :: empties)
                     (wrap (Z.of_nat (length pre) + 1 - 1)) = Ret s).
    { rewrite wrap_small by lia. apply array_get_app. lia. }
    apply Z.eqb_neq in Hs.
    destruct fuel; simpl; rewrite Hget; simpl; unfold getSize; now rewrite Hs.
  - destruct fuel as [|fuel]; [lia|].
    cbn [shrink_loop].
    replace (wrap (Z.of_nat (length pre) + 1 + Z.of_nat (S k) - 1))
      with (Z.of_nat (length pre) + 1 + Z.of_nat k) by (rewrite wrap_small; lia).
    rewrite (array_get_nth default_string)
      by (rewrite length_app; simpl length; lia).
    cbn [bind].
    replace (Z.to_nat (Z.of_nat (length pre) + 1 + Z.of_nat k))
      with (length pre + S k)%nat by lia.
    rewrite app_nth2_plus. cbn [nth].
    assert (Hz : size_ (nth k empties default_string) = 0).
    { rewrite Forall_forall in Hempty. apply Hempty, nth_In. lia. }
    unfold getSize. rewrite Hz.
    replace (0 <? Z.of_nat (length pre) + 1 + Z.of_nat (S k)) with true
      by (symmetry; apply Z.ltb_lt; lia).
    change (0 =? 0) with true. cbn [andb]. apply IH; lia.
Qed.

(** When every line of the table is empty, the trim reads [strings_] at the
    index [0 - 1], which wraps around, outside the block. *)
Lemma shrink_loop_all_empty (strings : list IntegratedString) :
  Forall (fun v => size_ v = 0) strings ->
  Z.of_nat (length strings) < SIZE_MOD ->
  forall (k fuel : nat),
    (k <= length strings)%nat -> (k <= fuel)%nat ->
    shrink_loop fuel strings (Z.of_nat k) = Fault.
Proof.
  intros Hempty Hlen. induction k as [|k IH]; intros fuel Hk Hfuel.
  - assert (Hget : array_get strings (wrap (Z.of_nat 0 - 1)) = @Fault IntegratedString).
    { unfold array_get. change (wrap (Z.of_nat 0 - 1)) with (SIZE_MOD - 1).
      replace ((0 <=? SIZE_MOD - 1) && (SIZE_MOD - 1 <? Z.of_nat (length strings)))
        with false by (symmetry; apply andb_false_iff; right; apply Z.ltb_ge; lia).
      reflexivity. }
    destruct fuel; cbn [shrink_loop]; rewrite Hget; reflexivity.
  - destruct fuel as [|fuel]; [lia|].
    cbn [shrink_loop].
    replace (wrap (Z.of_nat (S k) - 1)) with (Z.of_nat k) by (rewrite wrap_small; lia).
    rewrite (array_get_nth default_string) by lia.
    cbn [bind]. rewrite Nat2Z.id.
    assert (Hz : size_ (nth k strings default_string) = 0).
    { rewrite Forall_forall in Hempty. apply Hempty, nth_In. lia. }
    unfold getSize. rewrite Hz.
    replace (0 <? Z.of_nat (S k)) with true by (symmetry; apply Z.ltb_lt; lia).
    change (0 =? 0) with true. cbn [andb]. apply IH; lia.
Qed.

(** The views of the split lie inside a buffer of [total] units. *)
Lemma split_views_in_range (total : Z) (l : list Z) :
  forall beginning len,
    0 <= beginning -> 0 <= len ->
    beginning + len + Z.of_nat (length l) <= total ->
    Forall (fun v => exists base, ptr_ v = Some base /\ 0 <= base /\
                                  0 <= size_ v /\ base + size_ v <= total)
           (split_views beginning len l).
Proof.
  induction l as [|c l IH]; intros beginning len Hb Hl Hend; simpl length in Hend.
  - constructor; [|constructor]. exists beginning. simpl. repeat split; lia.
  - cbn [split_views]. destruct (c =? LF).
    + constructor.
      * exists beginning. simpl. repeat split; lia.
      * apply IH; lia.
    + apply IH; lia.
Qed.

Lemma split_views_some_nonempty (l : list Z) :
  forall beginning len,
    0 <= len -> 0 < len \/ Exists (fun c => c <> LF) l ->
    Exists (fun v => size_ v <> 0) (split_views beginning len l).
Proof.
  induction l as [|c l IH]; intros beginning len Hl H.
  - destruct H as [H | H]; [|inversion H].
    constructor. simpl. lia.
  - cbn [split_views]. destruct (c =? LF) eqn:Hc.
    + destruct H as [H | H].
      * apply Exists_cons_hd. simpl. lia.
      * apply Exists_cons_tl. apply IH; [lia|]. right.
        inversion H as [? ? Hne | ? ? Hex]; subst; [|assumption].
        apply Z.eqb_eq in Hc. contradiction.
    + apply IH; [lia|]. left. lia.
Qed.

Lemma last_nonempty_view (l : list IntegratedString) :
  Forall (fun v => size_ v = 0) l \/
  exists pre s empties,
    l = pre ++ s :: empties /\ size_ s <> 0 /\ Forall (fun v => size_ v = 0) empties.
Proof.
  induction l as [|x l [IH | (pre & s & empties & -> & Hs & He)]].
  - left. constructor.
  - destruct (Z.eq_dec (size_ x) 0) as [Hx | Hx].
    + left. now constructor.
    + right. exists [], x, l. now repeat split.
  - right. exists (x :: pre), s, empties. now repeat split.
Qed.

Lemma blanked_length (l : list Z) : length (blanked l) = length l.
Proof. apply length_map. Qed.

(** The table a load leaves, for a file that holds at least one non-empty
    line: the views of the split up to the last non-empty one are the current
    and the original order, the empty views after it stay in the block. *)
Lemma loadFromFile_table (file : list Z) (slack1 : Z) :
  Z.of_nat (length file) + 2 < SIZE_MOD ->
  Forall (fun c => c <> NUL) file ->
  hd 0 file <> LF ->
  Exists (fun c => c <> LF) (tl file) ->
  exists pre s empties,
    split_views 1 0 (tl file) = pre ++ s :: empties /\
    size_ s <> 0 /\
    Forall (fun v => size_ v = 0) empties /\
    Forall (valid_view (firstn 1 file ++ blanked (tl file) ++ [NUL; slack1]))
           (pre ++ s :: empties) /\
    map (content (firstn 1 file ++ blanked (tl file) ++ [NUL; slack1]))
        (pre ++ s :: empties) = split_on LF (tl file) /\
    Z.of_nat (length (pre ++ s :: empties)) < SIZE_MOD /\
    loadFromFile (Some file) NUL slack1 =
    Ret (mkText (firstn 1 file ++ blanked (tl file) ++ [NUL; slack1])
                (Z.of_nat (length file)) (Z.of_nat (length pre) + 1)
                (pre ++ s :: empties) (pre ++ [s])).
Proof.
  intros Hlen Hnul Hhd Hex.
  unfold loadFromFile.
  rewrite (wrap_small (Z.of_nat (length file)))
    by (unfold SIZE_MOD, SIZE_BITS in *; lia).
  rewrite Nat2Z.id, firstn_all.
  rewrite separateBufferIntoLines_result by assumption. cbn [bind].
  set (buffer := firstn 1 file ++ blanked (tl file) ++ [NUL; slack1]).
  assert (Hbuflen : Z.of_nat (length buffer) = Z.of_nat (length file) + 2).
  { unfold buffer. rewrite !length_app, blanked_length.
    destruct file as [|m body]; simpl; lia. }
  assert (Htl : (length (tl file) <= length file)%nat)
    by (destruct file; simpl; lia).
  pose proof (split_views_in_range (Z.of_nat (length buffer)) (tl file) 1 0
                ltac:(lia) ltac:(lia)) as Hrange.
  assert (Hrange' : Forall (valid_view buffer) (split_views 1 0 (tl file))).
  { assert (Hend : 1 + 0 + Z.of_nat (length (tl file)) <= Z.of_nat (length buffer)).
    { destruct file as [|m body]; [inversion Hex|]. simpl length in *. lia. }
    specialize (Hrange Hend). rewrite Forall_forall in Hrange |- *.
    intros v Hv. destruct (Hrange v Hv) as (base & Hp & Hb & Hs & He).
    split; [lia|]. right. exists base. repeat split; assumption. }
  clear Hrange.
  pose proof (split_views_length (tl file) 1 0) as Hcount.
  pose proof (split_views_content [NUL; slack1] (tl file) (firstn 1 file) []) as Hcontent.
  assert (Hfirst : Z.of_nat (length (firstn 1 file)) = 1)
    by (destruct file as [|m body]; [inversion Hex | reflexivity]).
  rewrite Hfirst in Hcontent. change (Z.of_nat (length (@nil Z))) with 0 in Hcontent.
  cbn [app] in Hcontent. fold buffer in Hcontent.
  assert (Hpre : prepend [] (split_on LF (tl file)) = split_on LF (tl file)).
  { pose proof (split_on_nonempty LF (tl file)).
    destruct (split_on LF (tl file)); [contradiction | reflexivity]. }
  rewrite Hpre in Hcontent. clear Hpre.
  destruct (last_nonempty_view (split_views 1 0 (tl file)))
    as [Hall | (pre & s & empties & Hdec & Hs & Hempty)].
  { exfalso.
    pose proof (split_views_some_nonempty (tl file) 1 0 ltac:(lia) (or_intror Hex)) as Hsome.
    apply Exists_exists in Hsome. destruct Hsome as (v & Hv & Hne).
    rewrite Forall_forall in Hall. apply Hne, Hall, Hv. }
  exists pre, s, empties.
  rewrite Hdec in *.
  rewrite length_app in Hcount. simpl length in Hcount.
  assert (Hsmall : Z.of_nat (length (pre ++ s :: empties)) < SIZE_MOD).
  { rewrite length_app. simpl length.
    pose proof (count_units_le LF (tl file)). lia. }
  do 5 (split; [first [reflexivity | assumption]|]).
  split; [assumption|].
  unfold shrinkEmptyLines. cbn [nLines_ strings_ buffer_ nSymbols_ original_].
  replace (Z.of_nat (S (count_units LF (tl file))))
    with (Z.of_nat (length pre) + 1 + Z.of_nat (length empties)) by lia.
  rewrite (shrink_loop_spec pre s empties Hs Hempty Hsmall) by lia.
  cbn [bind]. unfold setOriginal. cbn [nLines_ strings_ buffer_ nSymbols_ original_].
  rewrite memcpy_fresh by (rewrite length_app; simpl length; lia).
  cbn [bind].
  replace (Z.to_nat (Z.of_nat (length pre) + 1)) with (length pre + 1)%nat by lia.
  rewrite firstn_app_2. reflexivity.
Qed.

Lemma current_order_prefix (buffer : list Z) (nSymbols : Z)
    (kept rest original : list IntegratedString) :
  current_order (mkText buffer nSymbols (Z.of_nat (length kept)) (kept ++ rest) original)
  = kept.
Proof.
  unfold current_order. cbn [nLines_ strings_].
  rewrite Nat2Z.id, firstn_app, Nat.sub_diag, firstn_O, firstn_all. apply app_nil_r.
Qed.

(** X11: the load of a file that holds at least one non-empty line: the
    trim keeps the lines up to the last non-empty one and drops the empty
    lines after it, the table is well formed, and the original order is the
    order after the trim. *)
Theorem loadFromFile_trims (file : list Z) (slack0 slack1 : Z) :
  Z.of_nat (length file) + 2 < SIZE_MOD ->
  Forall (fun c => c <> NUL) file ->
  hd 0 file <> LF ->
  slack0 = NUL ->
  Exists (fun c => c <> LF) (tl file) ->
  exists t kept final dropped,
    loadFromFile (Some file) slack0 slack1 = Ret t /\
    table_ok t /\
    original_ t = current_order t /\
    split_on LF (tl file) = kept ++ final :: dropped /\
    final <> [] /\
    Forall (fun line => line = []) dropped /\
    map (content (buffer_ t)) (current_order t) = kept ++ [final].
Proof.
  intros Hlen Hnul Hhd -> Hex.
  destruct (loadFromFile_table file slack1 Hlen Hnul Hhd Hex)
    as (pre & s & empties & _ & Hs & Hempty & Hvalid & Hcontent & Hsmall & Hload).
  set (buffer := firstn 1 file ++ blanked (tl file) ++ [NUL; slack1]) in *.
  rewrite map_app in Hcontent. cbn [map] in Hcontent.
  apply Forall_app in Hvalid. destruct Hvalid as [Hvpre Hvrest].
  inversion Hvrest as [|? ? Hvs Hvempty]; subst.
  eexists. exists (map (content buffer) pre), (content buffer s),
                  (map (content buffer) empties).
  split; [exact Hload|].
  replace (Z.of_nat (length pre) + 1) with (Z.of_nat (length (pre ++ [s])))
    by (rewrite length_app; simpl length; lia).
  replace (pre ++ s :: empties) with ((pre ++ [s]) ++ empties)
    by (rewrite <- app_assoc; reflexivity).
  unfold table_ok, lines_in_block. rewrite current_order_prefix.
  cbn [nLines_ strings_ buffer_ original_].
  split; [|split; [reflexivity|]].
  - split; [|split].
    + rewrite <- app_assoc. cbn [app].
      repeat rewrite length_app in Hsmall. repeat rewrite length_app.
      simpl length in Hsmall |- *. lia.
    + intros E. assert (Hl : length buffer = 0%nat) by now rewrite E.
      unfold buffer in Hl. rewrite !length_app in Hl. simpl length in Hl. lia.
    + apply Forall_app. split; [assumption|]. now constructor.
  - split; [now symmetry|]. split; [|split].
    + intros E. pose proof (content_length buffer s Hvs) as Hl.
      rewrite E in Hl. simpl in Hl. lia.
    + apply Forall_forall. intros line Hin. apply in_map_iff in Hin.
      destruct Hin as (v & <- & Hv). apply empty_view_content.
      rewrite Forall_forall in Hempty. now apply Hempty.
    + now rewrite map_app.
Qed.

Lemma loadFromFile_trims_witness :
  exists t kept final dropped,
    loadFromFile (Some [0xfeff; 97; 10; 46; 98; 10; 10]) 0 5 = Ret t /\
    table_ok t /\
    original_ t = current_order t /\
    split_on LF (tl [0xfeff; 97; 10; 46; 98; 10; 10]) = kept ++ final :: dropped /\
    final <> [] /\
    Forall (fun line => line = []) dropped /\
    map (content (buffer_ t)) (current_order t) = kept ++ [final].
Proof.
  apply (loadFromFile_trims [0xfeff; 97; 10; 46; 98; 10; 10] 0 5).
  - unfold SIZE_MOD, SIZE_BITS. simpl. lia.
  - unfold NUL. repeat (constructor; [lia|]). constructor.
  - unfold LF. simpl. lia.
  - reflexivity.
  - apply Exists_cons_hd. unfold LF. lia.
Defined.

(** One trailing separator: the split gives the line and one empty line, the
    trim drops that one. Two trailing separators: the trim drops both. *)
Example trim_one_trailing_separator :
  loadFromFile (Some [0xfeff; 97; 10]) 0 0 =
  Ret (mkText [0xfeff; 97; 0; 0; 0] 3 1
              [mkIntegratedString (Some 1) 1; mkIntegratedString (Some 3) 0]
              [mkIntegratedString (Some 1) 1]).
Proof. vm_compute. reflexivity. Qed.

Example trim_two_trailing_separators :
  loadFromFile (Some [0xfeff; 97; 10; 10]) 0 0 =
  Ret (mkText [0xfeff; 97; 0; 0; 0; 0] 4 1
              [mkIntegratedString (Some 1) 1; mkIntegratedString (Some 3) 0;
               mkIntegratedString (Some 4) 0]
              [mkIntegratedString (Some 1) 1]).
Proof. vm_compute. reflexivity. Qed.

(** C5 at an input whose lines are all empty, a file that holds a marker
    and one separator: the split returns two empty lines, and the trim, having
    dropped both, evaluates [strings_[nLines_ - 1]] with [nLines_ = 0] before
    it tests [nLines_ > 0]; the read is outside the block, and the load has no
    line count. *)
Theorem trim_of_empty_lines_faults :
  separateBufferIntoLines (mkText ([0xfeff; 10] ++ [0; 0]) 2 0 [] []) =
    Ret (mkText [0xfeff; 0; 0; 0] 2 2
                [mkIntegratedString (Some 1) 0; mkIntegratedString (Some 2) 0] []) /\
  shrinkEmptyLines
    (mkText [0xfeff; 0; 0; 0] 2 2
            [mkIntegratedString (Some 1) 0; mkIntegratedString (Some 2) 0] []) = Fault /\
  loadFromFile (Some [0xfeff; 10]) 0 0 = Fault.
Proof. repeat split; vm_compute; reflexivity. Qed.

(** ** A file sorted and rendered *)

Example sort_and_print :
  (t <- loadFromFile (Some [0xfeff; 98; 10; 46; 97; 10]) 0 0 ;;
   t <- sort insertion_sort (as_predicate (operator_lt true (buffer_ t))) t ;;
   printToFile t) = Ret [0xfeff; 46; 97; 10; 98; 10].
Proof. vm_compute. reflexivity. Qed.

(** * Further properties of the code *)

(** ** The code-unit comparison *)

(** X1: [utf16_comp_le] is antisymmetric, swapping its arguments negates
    its result, and on 16-bit units it returns 0 exactly for equal units. *)
Theorem utf16_comp_le_antisym (le : bool) (x y : Z) :
  is_char16 x -> is_char16 y ->
  utf16_comp_le le x y = - utf16_comp_le le y x /\
  (utf16_comp_le le x y = 0 <-> x = y).
Proof.
  intros Hx Hy.
  destruct (utf16_comp_le_cases le x y) as [[Hc Ho] | [[Hc Ho] | [Hc Ho]]];
    destruct (utf16_comp_le_cases le y x) as [[Hc' Ho'] | [[Hc' Ho'] | [Hc' Ho']]];
    try lia; rewrite Hc, Hc'; (split; [reflexivity|]).
  - split; [discriminate|]. intros ->. lia.
  - split; [intros _|reflexivity]. now apply (htobe16_inj le).
  - split; [discriminate|]. intros ->. lia.
Qed.

Lemma utf16_comp_le_antisym_witness :
  utf16_comp_le true 0x041E 0x041F = - utf16_comp_le true 0x041F 0x041E /\
  (utf16_comp_le true 0x041E 0x041F = 0 <-> 0x041E = 0x041F).
Proof.
  apply (utf16_comp_le_antisym true 0x041E 0x041F);
    unfold is_char16, CHAR16_MOD; lia.
Defined.

Lemma bswap16_bytes (x : Z) :
  is_char16 x -> bswap16 x = (x mod 256) * 256 + x / 256 /\
                 0 <= x mod 256 < 256 /\ 0 <= x / 256 < 256.
Proof.
  unfold is_char16, CHAR16_MOD, bswap16. intros Hx.
  assert (0 <= x / 256 < 256)
    by (split; [apply Z.div_pos | apply Z.div_lt_upper_bound]; lia).
  rewrite (Z.mod_small (x / 256)) by assumption.
  pose proof (Z.mod_pos_bound x 256 ltac:(lia)). repeat split; lia.
Qed.

(** X2: on a little-endian host [utf16_comp_le] orders 16-bit units by
    their low byte first and their high byte second, not by their value; on a
    big-endian host it orders them by value. *)
Theorem utf16_comp_le_byte_order (x y : Z) :
  is_char16 x -> is_char16 y ->
  (utf16_comp_le true x y = -1 <->
   x mod 256 < y mod 256 \/ (x mod 256 = y mod 256 /\ x / 256 < y / 256)) /\
  (utf16_comp_le false x y = -1 <-> x < y).
Proof.
  intros Hx Hy. split.
  - destruct (bswap16_bytes x Hx) as (Ex & Hxl & Hxh).
    destruct (bswap16_bytes y Hy) as (Ey & Hyl & Hyh).
    destruct (utf16_comp_le_cases true x y) as [[Hc Ho] | [[Hc Ho] | [Hc Ho]]];
      rewrite Hc; simpl in Ho; rewrite Ex, Ey in Ho;
      (split; [intros E; try discriminate E | intros E]); lia.
  - destruct (utf16_comp_le_cases false x y) as [[Hc Ho] | [[Hc Ho] | [Hc Ho]]];
      rewrite Hc; simpl in Ho;
      (split; [intros E; try discriminate E | intros E]); lia.
Qed.

Lemma utf16_comp_le_byte_order_witness :
  (utf16_comp_le true 0x0100 0x00FF = -1 <->
   0x0100 mod 256 < 0x00FF mod 256 \/
   (0x0100 mod 256 = 0x00FF mod 256 /\ 0x0100 / 256 < 0x00FF / 256)) /\
  (utf16_comp_le false 0x0100 0x00FF = -1 <-> 0x0100 < 0x00FF).
Proof.
  apply (utf16_comp_le_byte_order 0x0100 0x00FF);
    unfold is_char16, CHAR16_MOD; lia.
Defined.

(** A unit with a high byte is below a unit without one on a little-endian
    host, above it on a big-endian one. *)
Example utf16_comp_le_hosts :
  utf16_comp_le true 0x0100 0x00FF = -1 /\ utf16_comp_le false 0x0100 0x00FF = 1.
Proof. split; reflexivity. Qed.

(** ** Strings ended by a zero unit *)

Lemma utf16_strlen_from_spec (l tail : list Z) :
  Forall (fun c => c <> NUL) l ->
  forall currentLen,
    0 <= currentLen -> currentLen + Z.of_nat (length l) < SIZE_MOD ->
    utf16_strlen_from (l ++ NUL :: tail) currentLen =
    Ret (currentLen + Z.of_nat (length l)).
Proof.
  induction 1 as [|c l Hc Hl IH]; intros currentLen H0 Hbound.
  - simpl. f_equal. lia.
  - simpl app. cbn [utf16_strlen_from].
    apply Z.eqb_neq in Hc. rewrite Hc. cbn [negb].
    simpl length in Hbound |- *.
    rewrite wrap_small by lia. rewrite IH by lia. f_equal. lia.
Qed.

Lemma utf16_strlen_from_unterminated (l : list Z) :
  Forall (fun c => c <> NUL) l ->
  forall currentLen, utf16_strlen_from l currentLen = Fault.
Proof.
  induction 1 as [|c l Hc Hl IH]; intros currentLen; [reflexivity|].
  cbn [utf16_strlen_from]. apply Z.eqb_neq in Hc. rewrite Hc. apply IH.
Qed.

Lemma utf16_count_from_unterminated (symbol : Z) (l : list Z) :
  Forall (fun c => c <> NUL) l ->
  forall answer, utf16_count_from l symbol answer = Fault.
Proof.
  induction 1 as [|c l Hc Hl IH]; intros answer; [reflexivity|].
  cbn [utf16_count_from]. apply Z.eqb_neq in Hc. rewrite Hc. apply IH.
Qed.

(** X3: [utf16_strlen] returns the number of units before the first zero
    unit of the block it is given, whatever follows that unit; on a block
    without a zero unit it reads past the end of the block. *)
Theorem utf16_strlen_first_zero (l tail : list Z) :
  Forall (fun c => c <> NUL) l ->
  Z.of_nat (length l) < SIZE_MOD ->
  utf16_strlen (l ++ NUL :: tail) = Ret (Z.of_nat (length l)) /\
  utf16_strlen l = Fault.
Proof.
  intros Hl Hlen. unfold utf16_strlen. split.
  - rewrite utf16_strlen_from_spec by (try assumption; lia). reflexivity.
  - now apply utf16_strlen_from_unterminated.
Qed.

Lemma utf16_strlen_first_zero_witness :
  utf16_strlen ([0x041F; 0x0443] ++ NUL :: [7; 0]) =
    Ret (Z.of_nat (length [0x041F; 0x0443])) /\
  utf16_strlen [0x041F; 0x0443] = Fault.
Proof.
  apply (utf16_strlen_first_zero [0x041F; 0x0443] [7; 0]).
  - unfold NUL. repeat (constructor; [lia|]). constructor.
  - unfold SIZE_MOD, SIZE_BITS. simpl. lia.
Defined.

(** X4: [utf16_count] counts the occurrences of the symbol before the
    first zero unit only, whatever follows that unit; on a block without a
    zero unit it reads past the end of the block. *)
Theorem utf16_count_first_zero (symbol : Z) (l tail : list Z) :
  Forall (fun c => c <> NUL) l ->
  Z.of_nat (length l) < SIZE_MOD ->
  utf16_count (l ++ NUL :: tail) symbol = Ret (Z.of_nat (count_units symbol l)) /\
  utf16_count l symbol = Fault.
Proof.
  intros Hl Hlen. unfold utf16_count. split.
  - rewrite utf16_count_from_spec by (try assumption; lia). reflexivity.
  - now apply utf16_count_from_unterminated.
Qed.

Lemma utf16_count_first_zero_witness :
  utf16_count ([97; 10; 98; 10] ++ NUL :: [10; 10]) LF =
    Ret (Z.of_nat (count_units LF [97; 10; 98; 10])) /\
  utf16_count [97; 10; 98; 10] LF = Fault.
Proof.
  apply (utf16_count_first_zero LF [97; 10; 98; 10] [10; 10]).
  - unfold NUL. repeat (constructor; [lia|]). constructor.
  - unfold SIZE_MOD, SIZE_BITS. simpl. lia.
Defined.

(** X5: the constructor from a pointer to a zero-terminated string gives a
    valid view of the memory whose content is the string without its
    terminator. *)
Theorem IntegratedString_of_ptr_view (pre l tail : list Z) :
  Forall (fun c => c <> NUL) l ->
  Z.of_nat (length (pre ++ l ++ NUL :: tail)) < SIZE_MOD ->
  exists s,
    IntegratedString_of_ptr (pre ++ l ++ NUL :: tail) (Z.of_nat (length pre)) = Ret s /\
    valid_view (pre ++ l ++ NUL :: tail) s /\
    content (pre ++ l ++ NUL :: tail) s = l.
Proof.
  intros Hl Hlen.
  exists (mkIntegratedString (Some (Z.of_nat (length pre))) (Z.of_nat (length l))).
  rewrite !length_app in Hlen. simpl length in Hlen.
  split; [|split].
  - unfold IntegratedString_of_ptr, utf16_strlen.
    rewrite Nat2Z.id, skipn_app, skipn_all, Nat.sub_diag. cbn [skipn app].
    rewrite utf16_strlen_from_spec by (try assumption; lia). reflexivity.
  - split; [simpl; lia|]. right. exists (Z.of_nat (length pre)).
    simpl. rewrite !length_app. simpl length. repeat split; lia.
  - apply content_at.
Qed.

Lemma IntegratedString_of_ptr_view_witness :
  exists s,
    IntegratedString_of_ptr ([7; 0] ++ [0x041E; 0x0431] ++ NUL :: [9])
                            (Z.of_nat (length [7; 0])) = Ret s /\
    valid_view ([7; 0] ++ [0x041E; 0x0431] ++ NUL :: [9]) s /\
    content ([7; 0] ++ [0x041E; 0x0431] ++ NUL :: [9]) s = [0x041E; 0x0431].
Proof.
  apply (IntegratedString_of_ptr_view [7; 0] [0x041E; 0x0431] [9]).
  - unfold NUL. repeat (constructor; [lia|]). constructor.
  - unfold SIZE_MOD, SIZE_BITS. simpl. lia.
Defined.

(** ** The comparator as an order *)

Lemma reads_scan (d : direction) (mem : memory) (s : IntegratedString) :
  valid_view mem s ->
  reads mem (ptr_ s) (scan_start d s) (scan_step d) (size_ s) (scan d mem s).
Proof.
  intros Hv. destruct d; simpl.
  - now apply reads_forward.
  - now apply reads_backward.
Qed.

Lemma advance_stops (mem : memory) (ptr : option Z) (start direction size : Z)
    (l : list Z) :
  reads mem ptr start direction size l -> size < SIZE_MOD ->
  forall (fuel : nat) (ind : Z),
    0 <= ind <= size -> (Z.to_nat (size - ind) <= fuel)%nat ->
    exists ind',
      advanceUntilNotProhibited fuel mem ptr start size ind direction = Ret ind' /\
      ind <= ind' <= size /\
      (forall i, ind <= i < ind' -> isProhibitedSymbol (nth (Z.to_nat i) l 0) = true) /\
      (ind' < size -> isProhibitedSymbol (nth (Z.to_nat ind') l 0) = false).
Proof.
  intros [Hlen Hload] Hsize fuel.
  induction fuel as [|fuel IH]; intros ind Hind Hfuel.
  - assert (ind = size) by lia. subst ind.
    exists size. simpl. rewrite Z.ltb_irrefl.
    split; [reflexivity|]. split; [lia|]. split; intros; lia.
  - simpl. destruct (ind <? size) eqn:Hlt.
    + apply Z.ltb_lt in Hlt. rewrite Hload by lia. simpl.
      destruct (isProhibitedSymbol (nth (Z.to_nat ind) l 0)) eqn:Hp.
      * rewrite wrap_small by lia.
        destruct (IH (ind + 1)) as (ind' & He & Hb & Hbefore & Hat); [lia | lia |].
        exists ind'. split; [exact He|]. split; [lia|]. split; [|exact Hat].
        intros i Hi. destruct (Z.eq_dec i ind) as [-> | Hne]; [exact Hp|].
        apply Hbefore. lia.
      * exists ind. split; [reflexivity|]. split; [lia|]. split; [intros; lia|].
        intros _. exact Hp.
    + apply Z.ltb_ge in Hlt. exists ind.
      split; [reflexivity|]. split; [lia|]. split; intros; lia.
Qed.

(** X6: on a valid view and in either scan direction,
    [advanceUntilNotProhibited] returns; it moves the index forward over
    skipped symbols only, never past the size of the view, and stops on the
    first unit of the scan that is not a skipped symbol. *)
Theorem advanceUntilNotProhibited_stops (d : direction) (mem : memory)
    (s : IntegratedString) (ind : Z) :
  valid_view mem s -> 0 <= ind <= size_ s ->
  exists ind',
    advanceUntilNotProhibited (Z.to_nat (size_ s)) mem (ptr_ s) (scan_start d s)
                              (size_ s) ind (scan_step d) = Ret ind' /\
    ind <= ind' <= size_ s /\
    (forall i, ind <= i < ind' ->
               isProhibitedSymbol (nth (Z.to_nat i) (scan d mem s) 0) = true) /\
    (ind' < size_ s ->
     isProhibitedSymbol (nth (Z.to_nat ind') (scan d mem s) 0) = false).
Proof.
  intros Hv Hind. pose proof (valid_view_size _ _ Hv).
  apply (advance_stops mem (ptr_ s) (scan_start d s) (scan_step d) (size_ s));
    try lia. now apply reads_scan.
Qed.

Lemma advanceUntilNotProhibited_stops_witness :
  exists ind',
    advanceUntilNotProhibited (Z.to_nat (size_ prohibited)) test_memory
      (ptr_ prohibited) (scan_start Backward prohibited) (size_ prohibited) 3
      (scan_step Backward) = Ret ind' /\
    3 <= ind' <= size_ prohibited /\
    (forall i, 3 <= i < ind' ->
               isProhibitedSymbol
                 (nth (Z.to_nat i) (scan Backward test_memory prohibited) 0) = true) /\
    (ind' < size_ prohibited ->
     isProhibitedSymbol
       (nth (Z.to_nat ind') (scan Backward test_memory prohibited) 0) = false).
Proof.
  apply (advanceUntilNotProhibited_stops Backward test_memory prohibited 3).
  - unfold prohibited, test_memory. concrete_valid.
  - simpl. lia.
Defined.

Lemma lex_less_trans (le : bool) (la : list Z) :
  forall lb lc,
    lex_less le la lb = true -> lex_less le lb lc = true ->
    lex_less le la lc = true.
Proof.
  induction la as [|x la IH]; intros [|y lb] [|z lc] Hab Hbc;
    simpl in Hab, Hbc |- *; try discriminate; try reflexivity.
  destruct (utf16_comp_le_cases le x y) as [[Hxy Oxy] | [[Hxy Oxy] | [Hxy Oxy]]];
    destruct (utf16_comp_le_cases le y z) as [[Hyz Oyz] | [[Hyz Oyz] | [Hyz Oyz]]];
    destruct (utf16_comp_le_cases le x z) as [[Hxz Oxz] | [[Hxz Oxz] | [Hxz Oxz]]];
    try lia; rewrite ?Hxy, ?Hyz, ?Hxz in *; simpl in Hab, Hbc |- *;
    try discriminate; try reflexivity.
  now apply (IH lb lc).
Qed.

(** X7: in each direction the public comparator is transitive on valid
    views: from [a] less than [b] and [b] less than [c] it answers [a] less
    than [c]. *)
Theorem compare_transitive (le : bool) (mem : memory) (d : direction)
    (a b c : IntegratedString) :
  valid_view mem a -> valid_view mem b -> valid_view mem c ->
  compare_toward le mem d a b = Ret true ->
  compare_toward le mem d b c = Ret true ->
  compare_toward le mem d a c = Ret true.
Proof.
  intros Ha Hb Hc. rewrite !compare_toward_scan by assumption.
  intros Hab Hbc. injection Hab as Hab. injection Hbc as Hbc.
  f_equal. now apply (lex_less_trans le _ (significant (scan d mem b))).
Qed.

(** The three names [a], [ab] and [b] in one memory. *)
Lemma compare_transitive_witness :
  compare_toward true [97; 98; 98] Forward
    (mkIntegratedString (Some 0) 1) (mkIntegratedString (Some 2) 1) = Ret true.
Proof.
  apply (compare_transitive true [97; 98; 98] Forward
           (mkIntegratedString (Some 0) 1) (mkIntegratedString (Some 0) 2)
           (mkIntegratedString (Some 2) 1)).
  - concrete_valid.
  - concrete_valid.
  - concrete_valid.
  - reflexivity.
  - reflexivity.
Defined.

(** X8: in each direction, being reported not-less both ways is
    transitive on valid views of 16-bit units: with X7 and the
    irreflexivity of C1 the comparator is a strict weak order, which is what
    [std::sort] asks of it. *)
Theorem incomparable_transitive (le : bool) (mem : memory) (d : direction)
    (a b c : IntegratedString) :
  Forall is_char16 mem ->
  valid_view mem a -> valid_view mem b -> valid_view mem c ->
  compare_toward le mem d a b = Ret false ->
  compare_toward le mem d b a = Ret false ->
  compare_toward le mem d b c = Ret false ->
  compare_toward le mem d c b = Ret false ->
  compare_toward le mem d a c = Ret false /\
  compare_toward le mem d c a = Ret false.
Proof.
  intros Hmem Ha Hb Hc. rewrite !compare_toward_scan by assumption.
  intros Hab Hba Hbc Hcb.
  injection Hab as Hab. injection Hba as Hba.
  injection Hbc as Hbc. injection Hcb as Hcb.
  assert (Eab : significant (scan d mem a) = significant (scan d mem b)).
  { destruct (lex_less_trichotomy le (significant (scan d mem a))
                (significant (scan d mem b)))
      as [(H1 & _) | [(_ & H2 & _) | (_ & _ & H3)]];
      try (now apply scan_char16); congruence. }
  assert (Ebc : significant (scan d mem b) = significant (scan d mem c)).
  { destruct (lex_less_trichotomy le (significant (scan d mem b))
                (significant (scan d mem c)))
      as [(H1 & _) | [(_ & H2 & _) | (_ & _ & H3)]];
      try (now apply scan_char16); congruence. }
  rewrite Eab, Ebc, lex_less_irrefl. split; reflexivity.
Qed.

(** The views [a.], [.a] and [a] of one memory. *)
Lemma incomparable_transitive_witness :
  compare_toward true [97; 46; 97] Forward
    (mkIntegratedString (Some 0) 2) (mkIntegratedString (Some 2) 1) = Ret false /\
  compare_toward true [97; 46; 97] Forward
    (mkIntegratedString (Some 2) 1) (mkIntegratedString (Some 0) 2) = Ret false.
Proof.
  apply (incomparable_transitive true [97; 46; 97] Forward
           (mkIntegratedString (Some 0) 2) (mkIntegratedString (Some 1) 2)
           (mkIntegratedString (Some 2) 1)).
  - concrete_char16.
  - concrete_valid.
  - concrete_valid.
  - concrete_valid.
  - reflexivity.
  - reflexivity.
  - reflexivity.
  - reflexivity.
Defined.

(** X9: in each direction the answer of the comparator depends on the
    significant units of its two views only: skipped symbols, wherever they
    stand in a line, do not change how it compares. *)
Theorem compare_ignores_prohibited (le : bool) (mem : memory) (d : direction)
    (a a' b b' : IntegratedString) :
  valid_view mem a -> valid_view mem a' -> valid_view mem b -> valid_view mem b' ->
  significant (content mem a) = significant (content mem a') ->
  significant (content mem b) = significant (content mem b') ->
  compare_toward le mem d a b = compare_toward le mem d a' b'.
Proof.
  intros Ha Ha' Hb Hb' Ea Eb. rewrite !compare_toward_scan by assumption.
  destruct d; simpl.
  - now rewrite Ea, Eb.
  - now rewrite !significant_rev, Ea, Eb.
Qed.

(** The views [.a], [b!], [a] and [b] of one memory. *)
Lemma compare_ignores_prohibited_witness :
  compare_toward true [46; 97; 98; 33; 97; 98] Forward
    (mkIntegratedString (Some 0) 2) (mkIntegratedString (Some 2) 2) =
  compare_toward true [46; 97; 98; 33; 97; 98] Forward
    (mkIntegratedString (Some 4) 1) (mkIntegratedString (Some 5) 1).
Proof.
  apply (compare_ignores_prohibited true [46; 97; 98; 33; 97; 98] Forward
           (mkIntegratedString (Some 0) 2) (mkIntegratedString (Some 4) 1)
           (mkIntegratedString (Some 2) 2) (mkIntegratedString (Some 5) 1)).
  - concrete_valid.
  - concrete_valid.
  - concrete_valid.
  - concrete_valid.
  - reflexivity.
  - reflexivity.
Defined.

(** X10: in each direction a line made of skipped symbols only is never
    above a line: no view is reported less than it, and it is reported less
    than a view exactly when that view holds a significant unit. *)
Theorem prohibited_only_is_least (le : bool) (mem : memory) (d : direction)
    (p v : IntegratedString) :
  valid_view mem p -> valid_view mem v ->
  significant (content mem p) = [] ->
  compare_toward le mem d v p = Ret false /\
  compare_toward le mem d p v = Ret (nonempty (significant (content mem v))).
Proof.
  intros Hp Hv Hs. rewrite !compare_toward_scan by assumption.
  assert (Hsp : significant (scan d mem p) = []).
  { destruct d; simpl; [exact Hs|]. now rewrite significant_rev, Hs. }
  rewrite Hsp, lex_less_nil_l, lex_less_nil_r. split; [reflexivity|].
  destruct d; simpl; [reflexivity|].
  now rewrite significant_rev, nonempty_rev.
Qed.

Lemma prohibited_only_is_least_witness :
  compare_toward true test_memory Forward obama prohibited = Ret false /\
  compare_toward true test_memory Forward prohibited obama =
  Ret (nonempty (significant (content test_memory obama))).
Proof.
  apply (prohibited_only_is_least true test_memory Forward prohibited obama).
  - unfold prohibited, test_memory. concrete_valid.
  - unfold obama, test_memory. concrete_valid.
  - reflexivity.
Defined.

(** ** The orders of a loaded table *)

Lemma memcpy_prefix {A : Type} (dst src : list A) (n : Z) :
  0 <= n <= Z.of_nat (length dst) -> Z.of_nat (length src) = n ->
  memcpy dst src n = Ret (src ++ skipn (Z.to_nat n) dst).
Proof.
  intros Hn Hsrc. unfold memcpy.
  replace ((0 <=? n) && (n <=? Z.of_nat (length dst)) && (n <=? Z.of_nat (length src)))
    with true by (symmetry; rewrite !andb_true_iff, !Z.leb_le; lia).
  rewrite firstn_all2 by lia. reflexivity.
Qed.

Lemma current_order_length (t : Text) :
  lines_in_block t -> length (current_order t) = Z.to_nat (nLines_ t).
Proof.
  intros [Hn Hblock]. unfold current_order. rewrite length_firstn. lia.
Qed.

(** The table with the lines of its current order replaced by [xs]. *)
Lemma loaded_replace (t : Text) (xs : list IntegratedString) :
  loaded t -> Permutation (current_order t) xs ->
  loaded (mkText (buffer_ t) (nSymbols_ t) (nLines_ t)
                 (xs ++ skipn (Z.to_nat (nLines_ t)) (strings_ t)) (original_ t)) /\
  current_order (mkText (buffer_ t) (nSymbols_ t) (nLines_ t)
                        (xs ++ skipn (Z.to_nat (nLines_ t)) (strings_ t))
                        (original_ t)) = xs.
Proof.
  intros ((Hblock & Hbuf & Hviews) & Horig & Hperm) Hxs.
  pose proof (current_order_length t Hblock) as Hcur.
  pose proof (Permutation_length Hxs) as Hlen.
  destruct Hblock as [Hn Hb].
  assert (Hnew : current_order
                   (mkText (buffer_ t) (nSymbols_ t) (nLines_ t)
                           (xs ++ skipn (Z.to_nat (nLines_ t)) (strings_ t))
                           (original_ t)) = xs).
  { unfold current_order. cbn [nLines_ strings_].
    rewrite firstn_app. replace (Z.to_nat (nLines_ t) - length xs)%nat with 0%nat by lia.
    rewrite firstn_O, app_nil_r. apply firstn_all2. lia. }
  split; [|exact Hnew].
  unfold loaded, table_ok, lines_in_block. rewrite Hnew.
  cbn [nLines_ strings_ buffer_ original_].
  repeat split; try assumption; try lia.
  - rewrite length_app, length_skipn. lia.
  - now apply (Permutation_Forall Hxs).
  - now apply (perm_trans Hperm).
Qed.

Lemma sort_result
    (std_sort : (IntegratedString -> IntegratedString -> bool) ->
                list IntegratedString -> list IntegratedString)
    (comp : IntegratedString -> IntegratedString -> bool) (t : Text) :
  lines_in_block t ->
  sort std_sort comp t =
  Ret (mkText (buffer_ t) (nSymbols_ t) (nLines_ t)
              (std_sort comp (current_order t) ++
               skipn (Z.to_nat (nLines_ t)) (strings_ t))
              (original_ t)).
Proof.
  intros [Hn Hblock]. unfold sort.
  replace ((0 <=? nLines_ t) && (nLines_ t <=? Z.of_nat (length (strings_ t))))
    with true by (symmetry; rewrite andb_true_iff, !Z.leb_le; lia).
  reflexivity.
Qed.

Lemma recoverOriginal_result (t : Text) :
  loaded t ->
  recoverOriginal t =
  Ret (mkText (buffer_ t) (nSymbols_ t) (nLines_ t)
              (original_ t ++ skipn (Z.to_nat (nLines_ t)) (strings_ t))
              (original_ t)).
Proof.
  intros (([Hn Hblock] & _) & Horig & _). unfold recoverOriginal.
  rewrite memcpy_prefix by (try assumption; lia). reflexivity.
Qed.

Lemma sample_table_loaded : loaded sample_table.
Proof.
  split; [exact sample_table_ok|]. split; [reflexivity|].
  unfold current_order. simpl. apply perm_swap.
Defined.

(** X12: [sort] on a loaded table, with a comparator on which [std::sort]
    permutes its range, returns a loaded table: the current order becomes
    what [std::sort] leaves, no line is added, dropped or repeated, and the
    buffer, the line count and the original order are untouched. *)
Theorem sort_keeps_lines
    (std_sort : (IntegratedString -> IntegratedString -> bool) ->
                list IntegratedString -> list IntegratedString)
    (comp : IntegratedString -> IntegratedString -> bool) (t : Text) :
  loaded t ->
  Permutation (current_order t) (std_sort comp (current_order t)) ->
  exists t',
    sort std_sort comp t = Ret t' /\
    loaded t' /\
    current_order t' = std_sort comp (current_order t) /\
    buffer_ t' = buffer_ t /\ nLines_ t' = nLines_ t /\ original_ t' = original_ t.
Proof.
  intros Hl Hperm. eexists. split; [apply sort_result, Hl|].
  destruct (loaded_replace t _ Hl Hperm) as [Hl' Hcur].
  repeat split; try assumption; apply Hl'.
Qed.

Lemma sort_keeps_lines_witness :
  exists t',
    sort insertion_sort (as_predicate (operator_lt true (buffer_ sample_table)))
         sample_table = Ret t' /\
    loaded t' /\
    current_order t' =
      insertion_sort (as_predicate (operator_lt true (buffer_ sample_table)))
                     (current_order sample_table) /\
    buffer_ t' = buffer_ sample_table /\ nLines_ t' = nLines_ sample_table /\
    original_ t' = original_ sample_table.
Proof.
  apply (sort_keeps_lines insertion_sort
           (as_predicate (operator_lt true (buffer_ sample_table))) sample_table).
  - exact sample_table_loaded.
  - apply insertion_sort_perm.
Defined.

(** X13: [recoverOriginal] on a loaded table returns a loaded table whose
    current order is the original order; a second [recoverOriginal] changes
    nothing. *)
Theorem recoverOriginal_restores (t : Text) :
  loaded t ->
  exists t',
    recoverOriginal t = Ret t' /\
    loaded t' /\
    current_order t' = original_ t /\
    original_ t' = original_ t /\
    recoverOriginal t' = Ret t'.
Proof.
  intros Hl. pose proof Hl as (_ & Horig & Hperm).
  destruct (loaded_replace t (original_ t) Hl (Permutation_sym Hperm)) as [Hl' Hcur].
  eexists. split; [now apply recoverOriginal_result|].
  split; [exact Hl'|]. split; [exact Hcur|]. split; [reflexivity|].
  rewrite (recoverOriginal_result _ Hl'). cbn [buffer_ nSymbols_ nLines_ strings_ original_].
  do 2 f_equal.
  rewrite skipn_app, skipn_skipn.
  replace (Z.to_nat (nLines_ t) - length (original_ t))%nat with 0%nat by lia.
  rewrite (skipn_all2 (original_ t)) by lia. cbn [app Nat.add]. reflexivity.
Qed.

Lemma recoverOriginal_restores_witness :
  exists t',
    recoverOriginal sample_table = Ret t' /\
    loaded t' /\
    current_order t' = original_ sample_table /\
    original_ t' = original_ sample_table /\
    recoverOriginal t' = Ret t'.
Proof.
  apply (recoverOriginal_restores sample_table). exact sample_table_loaded.
Defined.

(** X14: a snapshot taken from a loaded table can be reinstated after the
    table went back to its original order: [getOrder], then
    [recoverOriginal], then [setOrder] of the snapshot give back the table of
    the snapshot. *)
Theorem snapshot_survives_recover (t : Text) :
  loaded t ->
  exists order t1,
    getOrder t = Ret order /\
    recoverOriginal t = Ret t1 /\
    setOrder t1 order = Ret t.
Proof.
  intros Hl. pose proof Hl as ((Hblock & _) & Horig & Hperm).
  pose proof (current_order_length t Hblock) as Hcur.
  exists (mkLineOrder (current_order t)). eexists.
  split; [now apply getOrder_current|].
  split; [now apply recoverOriginal_result|].
  destruct Hblock as [Hn Hb].
  unfold setOrder. cbn [lines_ nLines_ strings_ buffer_ nSymbols_ original_].
  replace (Z.of_nat (length (current_order t)) =? nLines_ t) with true
    by (symmetry; apply Z.eqb_eq; lia).
  cbn [negb].
  rewrite memcpy_prefix
    by (try rewrite length_app, length_skipn; lia).
  cbn [bind].
  rewrite skipn_app.
  replace (Z.to_nat (nLines_ t) - length (original_ t))%nat with 0%nat by lia.
  rewrite (skipn_all2 (original_ t)) by lia. cbn [app skipn].
  unfold current_order. rewrite firstn_skipn. now destruct t.
Qed.

Lemma snapshot_survives_recover_witness :
  exists order t1,
    getOrder sample_table = Ret order /\
    recoverOriginal sample_table = Ret t1 /\
    setOrder t1 order = Ret sample_table.
Proof.
  apply (snapshot_survives_recover sample_table). exact sample_table_loaded.
Defined.

(** ** The renderings of [main.cpp] *)

Lemma printToFile_output (t : Text) :
  table_ok t ->
  printToFile t = Ret (rendering (buffer_ t) (hd 0 (buffer_ t)) (current_order t)).
Proof.
  intros (Hblock & Hbuf & Hviews).
  unfold printToFile, load_block. simpl.
  destruct (buffer_ t) as [|marker rest] eqn:Eb; [contradiction|].
  simpl length. replace (1 <=? Z.of_nat (S (length rest))) with true
    by (symmetry; apply Z.leb_le; lia).
  simpl bind. rewrite print_loop_spec; try assumption.
  - rewrite Eb. reflexivity.
  - now rewrite Eb.
  - destruct Hblock. lia.
  - lia.
Qed.

(** One step of [printFiles]: an operation that returns a loaded table with
    the same buffer and original order, followed by [printToFile]. *)
Lemma print_after (f : Text -> outcome Text) (t : Text) (output : list Z) :
  (exists t1, f t = Ret t1 /\ loaded t1 /\
              buffer_ t1 = buffer_ t /\ original_ t1 = original_ t) ->
  exists t1,
    (t1 <- f t ;; units <- printToFile t1 ;; Ret (t1, output ++ units)) =
    Ret (t1, output ++ rendering (buffer_ t) (hd 0 (buffer_ t)) (current_order t1)) /\
    f t = Ret t1 /\ loaded t1 /\
    buffer_ t1 = buffer_ t /\ original_ t1 = original_ t.
Proof.
  intros (t1 & Hf & Hl & Hb & Ho). exists t1.
  rewrite Hf. cbn [bind]. rewrite printToFile_output by apply Hl.
  cbn [bind]. rewrite Hb.
  split; [reflexivity|]. split; [reflexivity|]. split; [assumption|].
  split; [reflexivity | assumption].
Qed.

(** Splits the conjunctions of a goal, without unfolding. *)
Ltac conj_split := repeat match goal with |- _ /\ _ => split end.

Section ProgramProperties.

Variable little_endian : bool.

Variable std_sort :
  (IntegratedString -> IntegratedString -> bool) ->
  list IntegratedString -> list IntegratedString.

Hypothesis std_sort_permutes : forall comp l, Permutation l (std_sort comp l).

Lemma sort_step (comp : IntegratedString -> IntegratedString -> bool) (t : Text) :
  loaded t ->
  exists t1, sort std_sort comp t = Ret t1 /\ loaded t1 /\
             buffer_ t1 = buffer_ t /\ original_ t1 = original_ t.
Proof.
  intros Hl. eexists. split; [apply sort_result, Hl|].
  destruct (loaded_replace t _ Hl (std_sort_permutes comp (current_order t)))
    as [Hl' _].
  repeat split; apply Hl'.
Qed.

Lemma recover_step (t : Text) :
  loaded t ->
  exists t1, recoverOriginal t = Ret t1 /\ loaded t1 /\
             buffer_ t1 = buffer_ t /\ original_ t1 = original_ t /\
             current_order t1 = original_ t.
Proof.
  intros Hl. pose proof Hl as (_ & _ & Hperm).
  eexists. split; [now apply recoverOriginal_result|].
  destruct (loaded_replace t (original_ t) Hl (Permutation_sym Hperm)) as [Hl' Hc].
  repeat split; try apply Hl'. exact Hc.
Qed.

(** X15: [printFiles] on a loaded table, with a [std::sort] that permutes
    its range, returns; it appends to the output one rendering for each
    flag that is set, in the order sorted, sorted backwards, original; each
    rendering starts with the first unit of the buffer and holds the lines of
    the original order, each once; the last one, when asked, is the rendering
    of the original order itself, and the table is then left in that order. *)
Theorem printFiles_renderings (t : Text) (output : list Z)
    (needOrig needSort needRev : bool) :
  loaded t ->
  exists t' sorted reversed,
    printFiles little_endian std_sort t output needOrig needSort needRev =
    Ret (t',
         output ++
         (if needSort then rendering (buffer_ t) (hd 0 (buffer_ t)) sorted else []) ++
         (if needRev then rendering (buffer_ t) (hd 0 (buffer_ t)) reversed else []) ++
         (if needOrig
          then rendering (buffer_ t) (hd 0 (buffer_ t)) (original_ t) else [])) /\
    Permutation (original_ t) sorted /\
    Permutation (original_ t) reversed /\
    loaded t' /\
    (needOrig = true -> current_order t' = original_ t).
Proof.
  intros Hl. unfold printFiles.
  (* the sorted rendering *)
  assert (H1 : exists t1 sorted,
            (if needSort then print_sorted little_endian std_sort t output
             else Ret (t, output)) =
            Ret (t1, output ++
                     (if needSort
                      then rendering (buffer_ t) (hd 0 (buffer_ t)) sorted else [])) /\
            Permutation (original_ t) sorted /\ loaded t1 /\
            buffer_ t1 = buffer_ t /\ original_ t1 = original_ t).
  { destruct needSort.
    - destruct (print_after
                  (sort std_sort (as_predicate (operator_lt little_endian (buffer_ t))))
                  t output (sort_step _ t Hl))
        as (t1 & He & _ & Hl1 & Hb1 & Ho1).
      exists t1, (current_order t1). unfold print_sorted. rewrite He.
      conj_split; try assumption; try reflexivity. rewrite <- Ho1. apply Hl1.
    - exists t, (current_order t). rewrite app_nil_r.
      conj_split; try assumption; try reflexivity. apply Hl. }
  destruct H1 as (t1 & sorted & E1 & P1 & Hl1 & Hb1 & Ho1).
  rewrite E1. cbn [bind].
  (* the rendering sorted backwards *)
  assert (H2 : exists t2 reversed,
            (if needRev
             then print_reversed little_endian std_sort t1
                    (output ++
                     (if needSort
                      then rendering (buffer_ t) (hd 0 (buffer_ t)) sorted else []))
             else Ret (t1, output ++
                           (if needSort
                            then rendering (buffer_ t) (hd 0 (buffer_ t)) sorted
                            else []))) =
            Ret (t2, (output ++
                      (if needSort
                       then rendering (buffer_ t) (hd 0 (buffer_ t)) sorted else [])) ++
                     (if needRev
                      then rendering (buffer_ t) (hd 0 (buffer_ t)) reversed else [])) /\
            Permutation (original_ t) reversed /\ loaded t2 /\
            buffer_ t2 = buffer_ t /\ original_ t2 = original_ t).
  { destruct needRev.
    - destruct (print_after
                  (sort std_sort
                     (as_predicate (reverseStringComparator little_endian (buffer_ t1))))
                  t1
                  (output ++
                   (if needSort
                    then rendering (buffer_ t) (hd 0 (buffer_ t)) sorted else []))
                  (sort_step _ t1 Hl1))
        as (t2 & He & _ & Hl2 & Hb2 & Ho2).
      exists t2, (current_order t2). unfold print_reversed. rewrite He, Hb1.
      conj_split; try assumption; try congruence.
      rewrite <- Ho1, <- Ho2. apply Hl2.
    - exists t1, (current_order t1). rewrite app_nil_r.
      conj_split; try assumption; try reflexivity.
      rewrite <- Ho1. apply Hl1. }
  destruct H2 as (t2 & reversed & E2 & P2 & Hl2 & Hb2 & Ho2).
  rewrite E2. cbn [bind].
  (* the original order *)
  destruct needOrig.
  - destruct (recover_step t2 Hl2) as (t3 & E3 & Hl3 & Hb3 & Ho3 & Hc3).
    exists t3, sorted, reversed. unfold print_original. rewrite E3. cbn [bind].
    rewrite printToFile_output by apply Hl3. cbn [bind].
    rewrite Hb3, Hb2, Hc3, Ho2, <- !app_assoc.
    conj_split; try assumption; reflexivity.
  - exists t2, sorted, reversed. rewrite <- !app_assoc, app_nil_r.
    conj_split; try assumption; [reflexivity | discriminate].
Qed.

End ProgramProperties.

Lemma printFiles_renderings_witness :
  exists t' sorted reversed,
    printFiles true insertion_sort sample_table [] true true true =
    Ret (t',
         [] ++
         (if true
          then rendering (buffer_ sample_table) (hd 0 (buffer_ sample_table)) sorted
          else []) ++
         (if true
          then rendering (buffer_ sample_table) (hd 0 (buffer_ sample_table)) reversed
          else []) ++
         (if true
          then rendering (buffer_ sample_table) (hd 0 (buffer_ sample_table))
                         (original_ sample_table)
          else [])) /\
    Permutation (original_ sample_table) sorted /\
    Permutation (original_ sample_table) reversed /\
    loaded t' /\
    (true = true -> current_order t' = original_ sample_table).
Proof.
  apply (printFiles_renderings true insertion_sort insertion_sort_perm
           sample_table [] true true true).
  exact sample_table_loaded.
Defined.

(** The three renderings of the sample table. *)
Example printFiles_sample :
  printFiles true insertion_sort sample_table [] true true true =
  Ret (mkText (buffer_ sample_table) 4 2 (original_ sample_table)
              (original_ sample_table),
       [0xfeff; 97; 10; 98; 10] ++ [0xfeff; 97; 10; 98; 10] ++
       [0xfeff; 97; 10; 98; 10]).
Proof. vm_compute. reflexivity. Qed.

(** ** [loadFromBuffer] *)

Lemma array_set_length {A : Type} (a a' : list A) (i : Z) (x : A) :
  array_set a i x = Ret a' -> length a' = length a.
Proof.
  unfold array_set.
  destruct ((0 <=? i) && (i <? Z.of_nat (length a))) eqn:Hc; [|discriminate].
  apply andb_true_iff in Hc. destruct Hc as [H0 Hlt].
  apply Z.leb_le in H0. apply Z.ltb_lt in Hlt.
  intros E.
  assert (Ea : a' = firstn (Z.to_nat i) a ++ x :: skipn (S (Z.to_nat i)) a)
    by congruence.
  rewrite Ea, length_app, length_firstn.
  change (length (x :: skipn (S (Z.to_nat i)) a))
    with (S (length (skipn (S (Z.to_nat i)) a))).
  rewrite length_skipn. lia.
Qed.

(** The loop of the split keeps the size of the buffer. *)
Lemma split_loop_buffer_length (nSymbols : Z) (fuel : nat) :
  forall i st st',
    split_loop fuel nSymbols i st = Ret st' ->
    length (sp_buffer st') = length (sp_buffer st).
Proof.
  induction fuel as [|fuel IH]; intros i st st' H.
  - cbn [split_loop] in H. destruct (i <? nSymbols); [discriminate|].
    now injection H as <-.
  - cbn [split_loop] in H. destruct (i <? nSymbols); [|now injection H as <-].
    destruct (array_get (sp_buffer st) i) as [c| | |]; cbn [bind] in H;
      try discriminate.
    destruct (negb (c =? LF)).
    + apply IH in H. exact H.
    + destruct (array_set (sp_strings st) (currLine st) _) as [strings| | |];
        cbn [bind] in H; try discriminate.
      destruct (array_set (sp_buffer st) i NUL) as [buffer| | |] eqn:Hset;
        cbn [bind] in H; try discriminate.
      apply IH in H. cbn [sp_buffer] in H. rewrite H.
      now apply array_set_length in Hset.
Qed.

Lemma split_of_two_units (x y : Z) (t : Text) :
  (t0 <- separateBufferIntoLines (mkText [x; y] 2 0 [] []) ;; setOriginal t0) = Ret t ->
  nSymbols_ t = 2 /\ length (buffer_ t) = 2%nat /\ (x = NUL \/ y = NUL).
Proof.
  unfold separateBufferIntoLines. cbn [buffer_ nSymbols_ original_].
  destruct (utf16_count [x; y] LF) as [count| | |] eqn:Hcount; cbn [bind];
    try discriminate.
  destruct (split_loop (Z.to_nat 2) 2 1 _) as [st| | |] eqn:Hloop; cbn [bind];
    try discriminate.
  destruct (array_set (sp_strings st) (currLine st) _) as [strings| | |];
    cbn [bind]; try discriminate.
  unfold setOriginal. cbn [nLines_ strings_ buffer_ nSymbols_ original_].
  destruct (memcpy _ strings _) as [original| | |]; cbn [bind]; try discriminate.
  intros E. injection E as <-. cbn [nSymbols_ buffer_].
  split; [reflexivity|]. split.
  - apply split_loop_buffer_length in Hloop. exact Hloop.
  - destruct (Z.eq_dec x NUL) as [Hx | Hx]; [now left|].
    destruct (Z.eq_dec y NUL) as [Hy | Hy]; [now right|].
    exfalso. unfold utf16_count in Hcount.
    rewrite utf16_count_from_unterminated in Hcount; [discriminate|].
    repeat constructor; assumption.
Qed.

(** X16: [loadFromBuffer] allocates and copies two units whatever size it
    is given, its block size being the value of the assignment
    [nSymbols_ = 2]: a table it returns holds a buffer of two units, and it
    returns only when one of the first two units of the source is zero;
    otherwise the line count reads past the block. *)
Theorem loadFromBuffer_two_units (buf : list Z) (size : Z) (t : Text) :
  loadFromBuffer buf size = Ret t ->
  nSymbols_ t = 2 /\ length (buffer_ t) = 2%nat /\
  (nth 0 buf 1 = NUL \/ nth 1 buf 1 = NUL).
Proof.
  unfold loadFromBuffer.
  destruct (if size <? 0 then utf16_strlen buf else Ret (wrap size));
    cbn [bind]; try discriminate.
  destruct buf as [|x [|y rest]];
    [intros E; discriminate E | intros E; discriminate E |].
  assert (Hcopy : memcpy (repeat NUL (Z.to_nat 2)) (x :: y :: rest) 2 = Ret [x; y]).
  { unfold memcpy. simpl length.
    replace (2 <=? Z.of_nat (S (S (length rest)))) with true
      by (symmetry; apply Z.leb_le; lia).
    reflexivity. }
  rewrite Hcopy. cbn [bind nth]. apply split_of_two_units.
Qed.

Lemma loadFromBuffer_two_units_witness :
  nSymbols_ (mkText [97; 0] 2 1 [mkIntegratedString (Some 1) 1]
                    [mkIntegratedString (Some 1) 1]) = 2 /\
  length (buffer_ (mkText [97; 0] 2 1 [mkIntegratedString (Some 1) 1]
                          [mkIntegratedString (Some 1) 1])) = 2%nat /\
  (nth 0 [97; 0; 98; 10; 99; 0] 1 = NUL \/ nth 1 [97; 0; 98; 10; 99; 0] 1 = NUL).
Proof.
  apply (loadFromBuffer_two_units [97; 0; 98; 10; 99; 0] 5). vm_compute. reflexivity.
Defined.

(** A buffer of two lines, with its size or without: nothing is loaded. *)
Example loadFromBuffer_of_lines :
  loadFromBuffer [0xfeff; 97; 10; 98; 0] 4 = Fault /\
  loadFromBuffer [0xfeff; 97; 10; 98; 0] (-1) = Fault.
Proof. split; vm_compute; reflexivity. Qed.

(** ** [getOptions] *)

Lemma getOptions_switch_flags (options options' : Options) (r : getopt_result) :
  getOptions_switch options r = Ret options' ->
  needOrig options' = needOrig options || (opt r =? CHAR_o) /\
  needSort options' = needSort options || (opt r =? CHAR_s) /\
  needRev options' = needRev options || (opt r =? CHAR_r).
Proof.
  unfold getOptions_switch, CHAR_i, CHAR_o, CHAR_s, CHAR_r.
  destruct (opt r =? 105) eqn:Hi.
  { apply Z.eqb_eq in Hi. rewrite Hi. intros E. injection E as <-.
    cbn. now rewrite !orb_false_r. }
  destruct (opt r =? 111) eqn:Ho.
  { apply Z.eqb_eq in Ho. rewrite Ho. intros E. injection E as <-.
    cbn. now rewrite !orb_false_r, orb_true_r. }
  destruct (opt r =? 115) eqn:Hs.
  { apply Z.eqb_eq in Hs. rewrite Hs. intros E. injection E as <-.
    cbn. now rewrite !orb_false_r, orb_true_r. }
  destruct (opt r =? 114) eqn:Hr.
  { intros E. injection E as <-. cbn. now rewrite !orb_false_r, orb_true_r. }
  rewrite !orb_false_r.
  destruct (opt r =? 0); [|intros E; injection E as <-; now repeat split].
  destruct (array_get longOpt (optionIndex r)) as [entry| | |]; cbn [bind];
    try discriminate.
  destruct (negb (flag_is_null entry)); [intros E; injection E as <-; now repeat split|].
  destruct (name entry) as [entry_name|]; [|discriminate].
  destruct (String.eqb entry_name "output"); intros E; injection E as <-;
    now repeat split.
Qed.

Lemma getOptions_loop_flags (results : list getopt_result) :
  forall options options',
    getOptions_loop options results = Ret options' ->
    needOrig options' = needOrig options || asked CHAR_o results /\
    needSort options' = needSort options || asked CHAR_s results /\
    needRev options' = needRev options || asked CHAR_r results.
Proof.
  induction results as [|r rest IH]; intros options options' H.
  - simpl in H. injection H as <-. unfold asked. simpl. now rewrite !orb_false_r.
  - cbn [getOptions_loop] in H.
    destruct (getOptions_switch options r) as [o1| | |] eqn:Hsw; cbn [bind] in H;
      try discriminate.
    apply getOptions_switch_flags in Hsw. destruct Hsw as (H1 & H2 & H3).
    apply IH in H. destruct H as (G1 & G2 & G3).
    unfold asked in *. cbn [existsb].
    rewrite G1, G2, G3, H1, H2, H3, !orb_assoc. now repeat split.
Qed.

Lemma getOptions_switch_returns (options : Options) (r : getopt_result) :
  (opt r = 0 -> 0 <= optionIndex r <= 4) ->
  exists options', getOptions_switch options r = Ret options'.
Proof.
  intros Hidx. unfold getOptions_switch.
  destruct (opt r =? CHAR_i); [eexists; reflexivity|].
  destruct (opt r =? CHAR_o); [eexists; reflexivity|].
  destruct (opt r =? CHAR_s); [eexists; reflexivity|].
  destruct (opt r =? CHAR_r); [eexists; reflexivity|].
  destruct (opt r =? 0) eqn:H0; [|eexists; reflexivity].
  apply Z.eqb_eq in H0. specialize (Hidx H0).
  assert (Hcases : optionIndex r = 0 \/ optionIndex r = 1 \/ optionIndex r = 2 \/
                   optionIndex r = 3 \/ optionIndex r = 4) by lia.
  destruct Hcases as [-> | [-> | [-> | [-> | ->]]]]; eexists; reflexivity.
Qed.

(** X17: when every call of [getopt_long] that returns 0 leaves in
    [optionIndex] the index of one of the five long options, [getOptions]
    returns; in its result a rendering is on when its option was given, or
    when none of the three options was given: at least one rendering is
    always on. *)
Theorem getOptions_renderings (results : list getopt_result) :
  (forall r, In r results -> opt r = 0 -> 0 <= optionIndex r <= 4) ->
  exists options,
    getOptions results = Ret options /\
    let none := negb (asked CHAR_o results || asked CHAR_s results ||
                      asked CHAR_r results) in
    needOrig options = asked CHAR_o results || none /\
    needSort options = asked CHAR_s results || none /\
    needRev options = asked CHAR_r results || none /\
    needOrig options || needSort options || needRev options = true.
Proof.
  intros Hidx.
  assert (Hloop : forall options,
            exists options', getOptions_loop options results = Ret options').
  { induction results as [|r rest IH]; intros options; [eexists; reflexivity|].
    cbn [getOptions_loop].
    destruct (getOptions_switch_returns options r) as [o1 H1];
      [apply Hidx; now left|].
    rewrite H1. cbn [bind]. apply IH. intros r' Hin. apply Hidx. now right. }
  destruct (Hloop (mkOptions false false false EmptyString "output.txt"%string))
    as [o Ho].
  unfold getOptions. rewrite Ho. cbn [bind].
  apply getOptions_loop_flags in Ho. cbn [needOrig needSort needRev] in Ho.
  destruct Ho as (H1 & H2 & H3). rewrite !orb_false_l in H1, H2, H3.
  destruct o as [orig sorted rev input output].
  cbn [needOrig needSort needRev inputFilename outputFilename] in *.
  rewrite H1, H2, H3.
  destruct (asked CHAR_o results), (asked CHAR_s results), (asked CHAR_r results);
    eexists; (split; [reflexivity|]); cbn; repeat split.
Qed.

Lemma getOptions_renderings_witness :
  exists options,
    getOptions [mkGetopt CHAR_i 0 "in.txt"%string; mkGetopt 0 4 "out.txt"%string;
                mkGetopt CHAR_r 3 EmptyString] = Ret options /\
    let none :=
      negb (asked CHAR_o [mkGetopt CHAR_i 0 "in.txt"%string;
                          mkGetopt 0 4 "out.txt"%string;
                          mkGetopt CHAR_r 3 EmptyString] ||
            asked CHAR_s [mkGetopt CHAR_i 0 "in.txt"%string;
                          mkGetopt 0 4 "out.txt"%string;
                          mkGetopt CHAR_r 3 EmptyString] ||
            asked CHAR_r [mkGetopt CHAR_i 0 "in.txt"%string;
                          mkGetopt 0 4 "out.txt"%string;
                          mkGetopt CHAR_r 3 EmptyString]) in
    needOrig options =
      asked CHAR_o [mkGetopt CHAR_i 0 "in.txt"%string; mkGetopt 0 4 "out.txt"%string;
                    mkGetopt CHAR_r 3 EmptyString] || none /\
    needSort options =
      asked CHAR_s [mkGetopt CHAR_i 0 "in.txt"%string; mkGetopt 0 4 "out.txt"%string;
                    mkGetopt CHAR_r 3 EmptyString] || none /\
    needRev options =
      asked CHAR_r [mkGetopt CHAR_i 0 "in.txt"%string; mkGetopt 0 4 "out.txt"%string;
                    mkGetopt CHAR_r 3 EmptyString] || none /\
    needOrig options || needSort options || needRev options = true.
Proof.
  apply (getOptions_renderings
           [mkGetopt CHAR_i 0 "in.txt"%string; mkGetopt 0 4 "out.txt"%string;
            mkGetopt CHAR_r 3 EmptyString]).
  intros r [<- | [<- | [<- | []]]]; simpl; unfold CHAR_i, CHAR_r; lia.
Defined.

(** The options of a command line with an input, an output and [-r], and
    those of one with an input only. *)
Example getOptions_samples :
  getOptions [mkGetopt CHAR_i 0 "in.txt"%string; mkGetopt 0 4 "out.txt"%string;
              mkGetopt CHAR_r 3 EmptyString] =
    Ret (mkOptions false false true "in.txt"%string "out.txt"%string) /\
  getOptions [mkGetopt CHAR_i 0 "in.txt"%string] =
    Ret (mkOptions true true true "in.txt"%string "output.txt"%string).
Proof. split; reflexivity. Qed.

(** ** A file loaded and written back *)

Lemma join_cons (sep : Z) (line : list Z) (lines : list (list Z)) :
  lines <> [] -> join sep (line :: lines) = line ++ sep :: join sep lines.
Proof. destruct lines; [contradiction | reflexivity]. Qed.

Lemma join_trailing_empty (sep : Z) (lines : list (list Z)) :
  lines <> [] ->
  join sep (lines ++ [[]]) = flat_map (fun line => line ++ [sep]) lines.
Proof.
  induction lines as [|x lines IH]; intros Hne; [contradiction|].
  cbn [app flat_map]. rewrite join_cons by (destruct lines; discriminate).
  destruct lines as [|y lines].
  - simpl. now rewrite app_nil_r.
  - rewrite IH by discriminate. now rewrite <- app_assoc.
Qed.

Lemma in_join (sep c : Z) (line : list Z) (lines : list (list Z)) :
  In line lines -> In c line -> In c (join sep lines).
Proof.
  induction lines as [|x lines IH]; intros Hl Hc; [contradiction|].
  destruct lines as [|y lines].
  - destruct Hl as [-> | []]. exact Hc.
  - rewrite join_cons by discriminate. apply in_or_app.
    destruct Hl as [-> | Hl]; [now left|]. right. right. now apply IH.
Qed.

(** Lists of lines that end with their last non-empty line followed by
    empty lines split in one way only. *)
Lemma leading_empties_unique (a a' b b' : list (list Z)) (x y : list Z) :
  Forall (fun line => line = []) a -> Forall (fun line => line = []) a' ->
  x <> [] -> y <> [] ->
  a ++ x :: b = a' ++ y :: b' -> a = a' /\ x = y /\ b = b'.
Proof.
  intros Ha. revert a'. induction Ha as [|z a Hz Ha IH]; intros a' Ha' Hx Hy E.
  - destruct Ha' as [|z' a' Hz' Ha'].
    + simpl in E. injection E as -> ->. now repeat split.
    + simpl in E. injection E as -> _. contradiction.
  - destruct Ha' as [|z' a' Hz' Ha'].
    + simpl in E. injection E as <- _. contradiction.
    + simpl in E. injection E as -> E.
      destruct (IH a' Ha' Hx Hy E) as (-> & -> & ->). now repeat split.
Qed.

Lemma last_nonempty_unique (l l' e e' : list (list Z)) (x y : list Z) :
  Forall (fun line => line = []) e -> Forall (fun line => line = []) e' ->
  x <> [] -> y <> [] ->
  l ++ x :: e = l' ++ y :: e' -> l = l' /\ x = y /\ e = e'.
Proof.
  intros He He' Hx Hy E. apply (f_equal (@rev (list Z))) in E.
  rewrite !rev_app_distr in E. cbn [rev] in E. rewrite <- !app_assoc in E.
  cbn [app] in E.
  destruct (leading_empties_unique (rev e) (rev e') (rev l) (rev l') x y)
    as (E1 & E2 & E3); try assumption; try (now apply Forall_rev).
  apply (f_equal (@rev (list Z))) in E1, E3. rewrite !rev_involutive in E1, E3.
  now repeat split.
Qed.

Lemma flat_map_content (mem : memory) (views : list IntegratedString) :
  flat_map (fun s => content mem s ++ [UTF16_NEWLINE]) views =
  flat_map (fun line => line ++ [LF]) (map (content mem) views).
Proof.
  induction views as [|v views IH]; [reflexivity|].
  cbn [flat_map map]. now rewrite IH.
Qed.

(** X18: a file without a zero unit that starts with a unit other than a
    separator and ends with exactly one separator after a non-empty last
    line, followed in the buffer by a zero unit, is written back unit for
    unit by [loadFromFile] and [printToFile]. *)
Theorem load_print_round_trip (file : list Z) (slack1 : Z)
    (lines : list (list Z)) (final : list Z) :
  Z.of_nat (length file) + 2 < SIZE_MOD ->
  Forall (fun c => c <> NUL) file ->
  hd 0 file <> LF ->
  split_on LF (tl file) = lines ++ [final; []] ->
  final <> [] ->
  exists t,
    loadFromFile (Some file) NUL slack1 = Ret t /\
    printToFile t = Ret file.
Proof.
  intros Hlen Hnul Hhd Hsplit Hfinal.
  assert (Hex : Exists (fun c => c <> LF) (tl file)).
  { destruct final as [|c final]; [contradiction|].
    apply Exists_exists. exists c. split.
    - rewrite <- (join_split_on LF (tl file)), Hsplit.
      apply (in_join LF c (c :: final)); [|now left].
      apply in_or_app. right. now left.
    - pose proof (split_on_no_separator LF (tl file)) as Hno.
      rewrite Hsplit, Forall_forall in Hno.
      intros ->. apply (Hno (LF :: final)); [|now left].
      apply in_or_app. right. now left. }
  destruct (loadFromFile_table file slack1 Hlen Hnul Hhd Hex)
    as (pre & s & empties & _ & Hs & Hempty & Hvalid & Hcontent & Hsmall & Hload).
  set (buffer := firstn 1 file ++ blanked (tl file) ++ [NUL; slack1]) in *.
  eexists. split; [exact Hload|].
  assert (Hvalid' := Hvalid).
  apply Forall_app in Hvalid'. destruct Hvalid' as [Hvpre Hvrest].
  inversion Hvrest as [|? ? Hvs Hvempty]; subst.
  (* the lines kept are the lines of the file *)
  rewrite map_app in Hcontent. cbn [map] in Hcontent. rewrite Hsplit in Hcontent.
  destruct (last_nonempty_unique (map (content buffer) pre) lines
              (map (content buffer) empties) [[]] (content buffer s) final)
    as (Epre & Es & Eempties); try assumption.
  { apply Forall_forall. intros line Hin. apply in_map_iff in Hin.
    destruct Hin as (v & <- & Hv). apply empty_view_content.
    rewrite Forall_forall in Hempty. now apply Hempty. }
  { repeat constructor. }
  { intros E. pose proof (content_length buffer s Hvs) as Hl.
    rewrite E in Hl. simpl in Hl. lia. }
  (* the rendering *)
  replace (Z.of_nat (length pre) + 1) with (Z.of_nat (length (pre ++ [s])))
    by (rewrite length_app; simpl length; lia).
  replace (pre ++ s :: empties) with ((pre ++ [s]) ++ empties)
    by (rewrite <- app_assoc; reflexivity).
  rewrite printToFile_output.
  - rewrite current_order_prefix. cbn [buffer_]. unfold rendering.
    rewrite flat_map_content, map_app. cbn [map]. rewrite Epre, Es.
    rewrite <- join_trailing_empty by (destruct lines; discriminate).
    rewrite <- app_assoc. cbn [app]. rewrite <- Hsplit, join_split_on.
    destruct file as [|m body]; [inversion Hex|]. reflexivity.
  - unfold table_ok, lines_in_block. rewrite current_order_prefix.
    cbn [nLines_ strings_ buffer_]. split; [|split].
    + rewrite <- app_assoc. cbn [app].
      repeat rewrite length_app in Hsmall. repeat rewrite length_app.
      simpl length in Hsmall |- *. lia.
    + intros E. assert (Hl : length buffer = 0%nat) by now rewrite E.
      unfold buffer in Hl. rewrite !length_app in Hl. simpl length in Hl. lia.
    + apply Forall_app. split; [assumption|]. now constructor.
Qed.

Lemma load_print_round_trip_witness :
  exists t,
    loadFromFile (Some [0xfeff; 98; 10; 46; 97; 10]) NUL 7 = Ret t /\
    printToFile t = Ret [0xfeff; 98; 10; 46; 97; 10].
Proof.
  apply (load_print_round_trip [0xfeff; 98; 10; 46; 97; 10] 7 [[98]] [46; 97]).
  - unfold SIZE_MOD, SIZE_BITS. simpl. lia.
  - unfold NUL. repeat (constructor; [lia|]). constructor.
  - unfold LF. simpl. lia.
  - reflexivity.
  - discriminate.
Defined.

(** ** The lines of the split as zero-terminated strings *)

Lemma split_views_terminated (post : list Z) (l : list Z) :
  Forall (fun c => c <> NUL) l ->
  forall pre acc,
    Forall (fun c => c <> NUL) acc ->
    Z.of_nat (length (pre ++ acc ++ blanked l ++ NUL :: post)) < SIZE_MOD ->
    Forall (fun v => exists base,
                ptr_ v = Some base /\
                IntegratedString_of_ptr (pre ++ acc ++ blanked l ++ NUL :: post) base
                = Ret v)
           (split_views (Z.of_nat (length pre)) (Z.of_nat (length acc)) l).
Proof.
  induction 1 as [|c l Hc Hl IH]; intros pre acc Hacc Hlen.
  - constructor; [|constructor]. exists (Z.of_nat (length pre)).
    split; [reflexivity|]. unfold IntegratedString_of_ptr, utf16_strlen.
    rewrite Nat2Z.id, skipn_app, skipn_all, Nat.sub_diag. cbn [skipn app blanked map].
    rewrite !length_app in Hlen. simpl length in Hlen.
    rewrite utf16_strlen_from_spec by (try assumption; lia). reflexivity.
  - cbn [split_views blanked map]. fold (blanked l).
    rewrite !length_app, blanked_length in Hlen. simpl length in Hlen.
    destruct (c =? LF) eqn:Hlf.
    + constructor.
      * exists (Z.of_nat (length pre)). split; [reflexivity|].
        unfold IntegratedString_of_ptr, utf16_strlen.
        rewrite Nat2Z.id, skipn_app, skipn_all, Nat.sub_diag. cbn [skipn app].
        rewrite utf16_strlen_from_spec by (try assumption; lia). reflexivity.
      * specialize (IH (pre ++ acc ++ [NUL]) [] (Forall_nil _)).
        replace (Z.of_nat (length pre) + Z.of_nat (length acc) + 1)
          with (Z.of_nat (length (pre ++ acc ++ [NUL])))
          by (rewrite !length_app; simpl; lia).
        replace (pre ++ acc ++ (NUL :: blanked l) ++ NUL :: post)
          with ((pre ++ acc ++ [NUL]) ++ [] ++ blanked l ++ NUL :: post)
          by (rewrite <- !app_assoc; reflexivity).
        apply IH. rewrite !length_app, blanked_length. simpl length. lia.
    + specialize (IH pre (acc ++ [c])).
      replace (Z.of_nat (length acc) + 1) with (Z.of_nat (length (acc ++ [c])))
        by (rewrite length_app; simpl; lia).
      replace (pre ++ acc ++ (c :: blanked l) ++ NUL :: post)
        with (pre ++ (acc ++ [c]) ++ blanked l ++ NUL :: post)
        by (rewrite <- !app_assoc; reflexivity).
      apply IH.
      * apply Forall_app. split; [assumption|]. now constructor.
      * rewrite !length_app, blanked_length. simpl length. lia.
Qed.

(** X19: the split overwrites every separator with a zero unit, so that
    each line of the table is a zero-terminated string of the buffer: for a
    non-empty file without a zero unit that does not start with a separator
    and is followed by a zero unit, the constructor from a pointer, at the
    start of a line, gives that line back. *)
Theorem split_lines_are_strings (file : list Z) (slack1 : Z) :
  Z.of_nat (length file) + 2 < SIZE_MOD ->
  Forall (fun c => c <> NUL) file ->
  hd 0 file <> LF ->
  file <> [] ->
  exists t,
    separateBufferIntoLines
      (mkText (file ++ [NUL; slack1]) (Z.of_nat (length file)) 0 [] []) = Ret t /\
    Forall (fun v => exists base,
                ptr_ v = Some base /\
                IntegratedString_of_ptr (buffer_ t) base = Ret v)
           (strings_ t).
Proof.
  intros Hlen Hnul Hhd Hne.
  eexists. split; [now apply separateBufferIntoLines_result|].
  cbn [buffer_ strings_].
  destruct file as [|m body]; [contradiction|]. cbn [firstn tl].
  inversion Hnul as [|? ? Hm Hbody]; subst.
  pose proof (split_views_terminated [slack1] body Hbody [m] [] (Forall_nil _)) as H.
  cbn [app length] in H |- *. change (Z.of_nat 1) with 1 in H.
  change (Z.of_nat 0) with 0 in H. apply H.
  rewrite length_app, blanked_length. simpl length in Hlen |- *. lia.
Qed.

Lemma split_lines_are_strings_witness :
  exists t,
    separateBufferIntoLines
      (mkText ([0xfeff; 98; 10; 46; 97; 10] ++ [NUL; 7])
              (Z.of_nat (length [0xfeff; 98; 10; 46; 97; 10])) 0 [] []) = Ret t /\
    Forall (fun v => exists base,
                ptr_ v = Some base /\
                IntegratedString_of_ptr (buffer_ t) base = Ret v)
           (strings_ t).
Proof.
  apply (split_lines_are_strings [0xfeff; 98; 10; 46; 97; 10] 7).
  - unfold SIZE_MOD, SIZE_BITS. simpl. lia.
  - unfold NUL. repeat (constructor; [lia|]). constructor.
  - unfold LF. simpl. lia.
  - discriminate.
Defined.
